(** * A model of the real-time relay server (server.js)

    The server keeps three global maps (userId -> socketId, userId -> role,
    socketId -> userId), registers socket.io event handlers per connection
    and exposes REST endpoints that look users up and emit events.

    The file embeds the handlers of server.js as functions in a small
    state-and-exception monad over a [World] that holds the three maps, the
    part of the socket.io transport the handlers talk to (connected sockets
    and rooms) and the log of delivered events.

    Conventions of the embedding:
    - identifiers, names and roles are JavaScript strings, lists of user
      ids are arrays of strings, and payloads that are only forwarded are
      JSON values; any field of a request body or event payload may be
      absent ([None], [IdsUndefined], or [VUndefined] for a payload);
    - [toLowerCase] acts on the ASCII letters; the order of the properties
      of an object sent as JSON is not modelled;
    - [console.log] / [console.error] calls have no effect on the maps, the
      rooms or the deliveries and are left out;
    - [new Date().toISOString()] is the argument [now] of a handler;
    - socket.io: every connected socket is the only member of the room named
      by its own id, [socket.join]/[socket.leave] edit the room table, and a
      closing socket leaves all its rooms before its "disconnect" listeners
      run; [emit] is taken to accept every event name (its refusal of the
      reserved names, such as "connect", is not modelled);
    - a handler that throws leaves the world as it is at that point. *)

From stdpp Require Import base option list strings gmap fin_maps fin_sets.
From Stdlib Require Import ZArith Ascii String.

Open Scope string_scope.
Open Scope list_scope.

(** ** JavaScript values *)

Module Js.

(** JSON data together with [undefined]. *)
#[warnings="-register-all"] Inductive value : Type :=
| VUndefined
| VNull
| VBool (b : bool)
| VNum (n : Z)
| VStr (s : string)
| VArr (xs : list value)
| VObj (fields : list (string * value)).

(** ToBoolean on strings: only the empty string is falsy. *)
Definition truthy_str (s : string) : bool :=
  match s with
  | EmptyString => false
  | String _ _ => true
  end.

(** ToBoolean on a string-typed field that may be undefined. *)
Definition truthy_field (f : option string) : bool :=
  match f with
  | Some s => truthy_str s
  | None => false
  end.

(** ToBoolean on a value. *)
Definition truthy (v : value) : bool :=
  match v with
  | VUndefined | VNull => false
  | VBool b => b
  | VNum n => negb (n =? 0)%Z
  | VStr s => truthy_str s
  | VArr _ | VObj _ => true
  end.

(** [a || d] for a string-typed [a] that may be undefined. *)
Definition or_else (a : option string) (d : string) : string :=
  match a with
  | Some s => if truthy_str s then s else d
  | None => d
  end.

(** A string-typed field as a value. *)
Definition of_field (f : option string) : value :=
  match f with
  | Some s => VStr s
  | None => VUndefined
  end.

(** Template-literal interpolation of a string-typed field. *)
Definition interpolate (f : option string) : string :=
  match f with
  | Some s => s
  | None => "undefined"
  end.

(** [f === s] for a string [s]. *)
Definition strict_eq (f : option string) (s : string) : bool :=
  match f with
  | Some t => String.eqb t s
  | None => false
  end.

Fixpoint assoc (k : string) (fields : list (string * value)) : value :=
  match fields with
  | [] => VUndefined
  | (k', v) :: rest => if String.eqb k k' then v else assoc k rest
  end.

(** Property read [v.k] on a truthy value. *)
Definition get_prop (v : value) (k : string) : value :=
  match v with
  | VObj fields => assoc k fields
  | _ => VUndefined
  end.

(** [c.toLowerCase()] on one byte: ASCII letters only. *)
Definition lower_ascii (c : ascii) : ascii :=
  let n := nat_of_ascii c in
  if (65 <=? n)%nat && (n <=? 90)%nat then ascii_of_nat (n + 32) else c.

Fixpoint toLowerCase (s : string) : string :=
  match s with
  | EmptyString => EmptyString
  | String c rest => String (lower_ascii c) (toLowerCase rest)
  end.

(** [Map.prototype.get] on a map with string keys; an undefined key is
    never present. *)
Definition map_get (m : gmap string string) (k : option string) : option string :=
  match k with
  | Some s => m !! s
  | None => None
  end.

(** [Map.prototype.delete], same convention. *)
Definition map_delete (k : option string) (m : gmap string string) : gmap string string :=
  match k with
  | Some s => delete s m
  | None => m
  end.

(** [obj[k] = b] on a plain object holding booleans.  The key "__proto__"
    reaches the accessor inherited from Object.prototype, whose setter
    ignores a primitive: no own property is created. *)
Definition obj_set (k : string) (b : bool) (o : gmap string bool) : gmap string bool :=
  if String.eqb k "__proto__" then o else <[k := b]> o.

End Js.
Import Js.

(** ** The world: registry maps, transport, deliveries *)

(** What a connection handler reads from its socket. *)
Record Socket := mkSocket {
  id : string;
  auth_userId : option string;
  auth_role : option string;
}.

(** One event reaching one connected socket. *)
Record Delivery := mkDelivery {
  dest : string;
  ev : string;
  arg : value;
}.

Record World := mkWorld {
  userConnections : gmap string string;   (* userId -> socketId *)
  userRoles : gmap string string;         (* userId -> role *)
  socketUsers : gmap string string;       (* socketId -> userId *)
  sockets : gmap string Socket;           (* transport: connected sockets *)
  rooms : gmap string (gset string);      (* transport: room -> socket ids *)
  outbox : list Delivery;                 (* events delivered so far *)
}.

Definition initial : World :=
  mkWorld ∅ ∅ ∅ ∅ ∅ [].

Definition set_userConnections (f : gmap string string → gmap string string) (w : World) : World :=
  mkWorld (f (userConnections w)) (userRoles w) (socketUsers w) (sockets w) (rooms w) (outbox w).

Definition set_userRoles (f : gmap string string → gmap string string) (w : World) : World :=
  mkWorld (userConnections w) (f (userRoles w)) (socketUsers w) (sockets w) (rooms w) (outbox w).

Definition set_socketUsers (f : gmap string string → gmap string string) (w : World) : World :=
  mkWorld (userConnections w) (userRoles w) (f (socketUsers w)) (sockets w) (rooms w) (outbox w).

Definition set_sockets (f : gmap string Socket → gmap string Socket) (w : World) : World :=
  mkWorld (userConnections w) (userRoles w) (socketUsers w) (f (sockets w)) (rooms w) (outbox w).

Definition set_rooms (f : gmap string (gset string) → gmap string (gset string)) (w : World) : World :=
  mkWorld (userConnections w) (userRoles w) (socketUsers w) (sockets w) (f (rooms w)) (outbox w).

Definition push (ds : list Delivery) (w : World) : World :=
  mkWorld (userConnections w) (userRoles w) (socketUsers w) (sockets w) (rooms w) (outbox w ++ ds).

(** The members of a room; a room nobody joined is empty. *)
Definition members (w : World) (room : string) : gset string :=
  default ∅ (rooms w !! room).

(** ** The handler monad: state, and a thrown JavaScript exception *)

Inductive outcome (A : Type) : Type :=
| Returned (a : A)
| Thrown (message : string).
Arguments Returned {A} a.
Arguments Thrown {A} message.

Definition M (A : Type) : Type := World → outcome A * World.

Definition ret {A} (a : A) : M A := λ w, (Returned a, w).

Definition bind {A B} (m : M A) (k : A → M B) : M B :=
  λ w, match m w with
       | (Returned a, w') => k a w'
       | (Thrown e, w') => (Thrown e, w')
       end.

Definition throw {A} (message : string) : M A := λ w, (Thrown message, w).

Definition gets {A} (f : World → A) : M A := λ w, (Returned (f w), w).

Definition modify (f : World → World) : M unit := λ w, (Returned tt, f w).

Notation "'let*' x ':=' m 'in' k" := (bind m (λ x, k))
  (at level 10, x name, m at level 100, k at level 200).
Notation "m ';;' k" := (bind m (λ _, k))
  (at level 100, k at level 200, right associativity).

(** [xs.forEach(body)] where the callback updates local variables of the
    enclosing handler, gathered in [acc]. *)
Fixpoint forEach {A S : Type} (xs : list A) (body : A → S → M S) (acc : S) : M S :=
  match xs with
  | [] => ret acc
  | x :: rest => let* acc' := body x acc in forEach rest body acc'
  end.

(** ** socket.io operations used by the handlers *)

Definition deliver_to (targets : list string) (e : string) (a : value) : list Delivery :=
  map (λ sid, mkDelivery sid e a) targets.

(** [socket.join(room)] *)
Definition socket_join (sid room : string) : M unit :=
  modify (λ w, set_rooms (insert room ({[sid]} ∪ members w room)) w).

(** [socket.leave(room)] *)
Definition socket_leave (sid room : string) : M unit :=
  modify (λ w, set_rooms (insert room (members w room ∖ {[sid]})) w).

(** [socket.emit(e, a)]: to this socket only. *)
Definition socket_emit (sid : string) (e : string) (a : value) : M unit :=
  modify (push (deliver_to [sid] e a)).

(** [socket.to(room).emit(e, a)]: to the room, except this socket. *)
Definition socket_to_emit (sid room : string) (e : string) (a : value) : M unit :=
  modify (λ w, push (deliver_to (elements (members w room ∖ {[sid]})) e a) w).

(** [io.to(room).emit(e, a)]: to every member of the room. *)
Definition io_to_emit (room : string) (e : string) (a : value) : M unit :=
  modify (λ w, push (deliver_to (elements (members w room)) e a) w).

(** [io.emit(e, a)]: to every connected socket. *)
Definition io_emit (e : string) (a : value) : M unit :=
  modify (λ w, push (deliver_to (elements (dom (sockets w))) e a) w).

(** ** The connection handler (server.js 28-40) and its listeners *)

(** [socket.handshake.auth.userId || `guest-${socket.id}`] *)
Definition userId_of (socket : Socket) : string :=
  or_else (auth_userId socket) ("guest-" +:+ id socket).

(** [socket.handshake.auth.role || "Guest"] *)
Definition role_of (socket : Socket) : string :=
  or_else (auth_role socket) "Guest".

Definition on_connection (socket : Socket) : M unit :=
  let userId := userId_of socket in
  let role := role_of socket in
  modify (set_userConnections (insert userId (id socket)));;
  modify (set_socketUsers (insert (id socket) userId));;
  modify (set_userRoles (insert userId role));;
  socket_join (id socket) ("role-" +:+ role);;
  socket_join (id socket) ("user-" +:+ userId).

(** The "disconnect" listener (server.js 187-198).  [reason] only reaches
    the log line. *)
Definition on_disconnect (socket : Socket) (reason : string) : M unit :=
  let* disconnectedUserId := gets (λ w, socketUsers w !! id socket) in
  modify (set_userConnections (map_delete disconnectedUserId));;
  modify (set_socketUsers (delete (id socket)));;
  modify (set_userRoles (map_delete disconnectedUserId)).

(** A listener that destructures its argument throws when the client sent
    none ([const { chatRoomId } = data] with [data] undefined). *)
Definition destructure {A} (data : option A) : M A :=
  match data with
  | Some d => ret d
  | None => throw "TypeError: Cannot destructure property of undefined"
  end.

(** [if (x) { then_ } else { else_ }] on the result of a [Map.get]. *)
Definition if_truthy {A} (x : option string) (then_ : string → A) (else_ : A) : A :=
  match x with
  | Some s => if truthy_str s then then_ s else else_
  | None => else_
  end.

Record ChatData := mkChatData { chatRoomId : option string }.

Definition chat_payload (userId : string) (room : option string) (now : string) : value :=
  VObj [("userId", VStr userId); ("chatRoomId", of_field room); ("timestamp", VStr now)].

(** "chat:join-room" (server.js 48-59) *)
Definition on_chat_join_room (socket : Socket) (now : string) (data : option ChatData) : M unit :=
  let userId := userId_of socket in
  let* d := destructure data in
  socket_join (id socket) ("chat-" +:+ interpolate (chatRoomId d));;
  socket_to_emit (id socket) ("chat-" +:+ interpolate (chatRoomId d))
    "chat:user-joined" (chat_payload userId (chatRoomId d) now).

(** "chat:leave-room" (server.js 62-72) *)
Definition on_chat_leave_room (socket : Socket) (now : string) (data : option ChatData) : M unit :=
  let userId := userId_of socket in
  let* d := destructure data in
  socket_leave (id socket) ("chat-" +:+ interpolate (chatRoomId d));;
  socket_to_emit (id socket) ("chat-" +:+ interpolate (chatRoomId d))
    "chat:user-left" (chat_payload userId (chatRoomId d) now).

(** "chat:typing" (server.js 75-82) *)
Definition on_chat_typing (socket : Socket) (now : string) (data : option ChatData) : M unit :=
  let userId := userId_of socket in
  let* d := destructure data in
  socket_to_emit (id socket) ("chat-" +:+ interpolate (chatRoomId d))
    "chat:user-typing" (chat_payload userId (chatRoomId d) now).

(** "chat:stop-typing" (server.js 85-92) *)
Definition on_chat_stop_typing (socket : Socket) (now : string) (data : option ChatData) : M unit :=
  let userId := userId_of socket in
  let* d := destructure data in
  socket_to_emit (id socket) ("chat-" +:+ interpolate (chatRoomId d))
    "chat:user-stop-typing" (chat_payload userId (chatRoomId d) now).

Record OfferData := mkOfferData {
  offer_callId : value;
  offer_receiverId : option string;
  offer_offer : value;
}.

Record AnswerData := mkAnswerData {
  answer_callId : value;
  answer_callerId : option string;
  answer_answer : value;
}.

Record IceData := mkIceData {
  ice_callId : value;
  ice_targetUserId : option string;
  ice_candidate : value;
}.

Definition call_error (callId : value) (error : string) : value :=
  VObj [("callId", callId); ("error", VStr error)].

(** "call:offer" (server.js 97-127) *)
Definition on_call_offer (socket : Socket) (now : string) (data : option OfferData) : M unit :=
  let userId := userId_of socket in
  let* d := destructure data in
  let callId := offer_callId d in
  let receiverId := offer_receiverId d in
  let offer := offer_offer d in
  if strict_eq receiverId userId then
    socket_emit (id socket) "call:error" (call_error callId "Cannot call yourself")
  else
    let* receiverSocketId := gets (λ w, map_get (userConnections w) receiverId) in
    if_truthy receiverSocketId
      (λ sid, io_to_emit sid "call:offer"
                (VObj [("callId", callId); ("callerId", VStr userId);
                       ("offer", offer); ("timestamp", VStr now)]))
      (socket_emit (id socket) "call:error" (call_error callId "Receiver not connected")).

(** "call:answer" (server.js 130-151) *)
Definition on_call_answer (socket : Socket) (now : string) (data : option AnswerData) : M unit :=
  let userId := userId_of socket in
  let* d := destructure data in
  let callId := answer_callId d in
  let callerId := answer_callerId d in
  let answer := answer_answer d in
  if strict_eq callerId userId then
    ret tt
  else
    let* callerSocketId := gets (λ w, map_get (userConnections w) callerId) in
    if_truthy callerSocketId
      (λ sid, io_to_emit sid "call:answer"
                (VObj [("callId", callId); ("answer", answer); ("timestamp", VStr now)]))
      (ret tt).

(** "call:ice-candidate" (server.js 154-175) *)
Definition on_call_ice_candidate (socket : Socket) (now : string) (data : option IceData) : M unit :=
  let userId := userId_of socket in
  let* d := destructure data in
  let callId := ice_callId d in
  let targetUserId := ice_targetUserId d in
  let candidate := ice_candidate d in
  if strict_eq targetUserId userId then
    ret tt
  else
    let* targetSocketId := gets (λ w, map_get (userConnections w) targetUserId) in
    if_truthy targetSocketId
      (λ sid, io_to_emit sid "call:ice-candidate"
                (VObj [("callId", callId); ("candidate", candidate); ("timestamp", VStr now)]))
      (ret tt).

(** "ping" (server.js 179-184) *)
Definition on_ping (socket : Socket) (now : string) : M unit :=
  socket_emit (id socket) "pong" (VObj [("timestamp", VStr now); ("userId", VStr (userId_of socket))]).

(** ** The REST endpoints (server.js 204-469) *)

Record Response := mkResponse {
  status : nat;
  body : value;
}.

(** [res.json(obj)] *)
Definition json (fields : list (string * value)) : Response :=
  mkResponse 200 (VObj fields).

(** [res.status(400).json({ success: false, error })] *)
Definition bad_request (error : string) : Response :=
  mkResponse 400 (VObj [("success", VBool false); ("error", VStr error)]).

(** A body field that should hold an array of user ids: absent, a string
    where the array was expected, or the array. *)
Inductive ids : Type :=
| IdsUndefined
| IdsString (s : string)
| IdsArray (xs : list string).

Definition truthy_ids (x : ids) : bool :=
  match x with
  | IdsUndefined => false
  | IdsString s => truthy_str s
  | IdsArray _ => true
  end.

(** [x.forEach(body)]: a string has no [forEach]. *)
Definition js_forEach {S : Type} (x : ids) (body : string → S → M S) (acc : S) : M S :=
  match x with
  | IdsArray xs => forEach xs body acc
  | _ => throw "TypeError: forEach is not a function"
  end.

(** [x.length] *)
Definition js_length (x : ids) : nat :=
  match x with
  | IdsUndefined => 0
  | IdsString s => String.length s
  | IdsArray xs => List.length xs
  end.

(** The guard [!f] on a string-typed field: the field when it passes. *)
Definition required (f : option string) : option string :=
  match f with
  | Some s => if truthy_str s then Some s else None
  | None => None
  end.

(** The guard [!x || !Array.isArray(x)]: the array when it passes. *)
Definition required_array (x : ids) : option (list string) :=
  match x with
  | IdsArray xs => Some xs
  | _ => None
  end.

Definition num (n : nat) : value := VNum (Z.of_nat n).

Definition results_value (results : gmap string bool) : value :=
  VObj (map (λ kb, (kb.1, VBool kb.2)) (map_to_list results)).

(** The callback shared by the two fan-out loops (server.js 217-226 and
    413-422); [results] and [deliveredCount] are the handler's locals. *)
Definition fan_out_step (event : string) (data : value) (userId : string)
    (acc : gmap string bool * nat) : M (gmap string bool * nat) :=
  let results := acc.1 in
  let deliveredCount := acc.2 in
  let* socketId := gets (λ w, userConnections w !! userId) in
  if_truthy socketId
    (λ sid, io_to_emit sid event data;;
            ret (obj_set userId true results, S deliveredCount))
    (ret (obj_set userId false results, deliveredCount)).

(** POST /notify/chat/message (server.js 204-239) *)
Definition post_notify_chat_message (chatRoomId : option string) (recipientIds : ids)
    (messageData : value) : M Response :=
  match required chatRoomId, truthy_ids recipientIds, truthy messageData with
  | Some chatRoomId, true, true =>
      let* acc := js_forEach recipientIds (fan_out_step "chat:message" messageData) (∅, 0) in
      io_to_emit ("chat-" +:+ chatRoomId) "chat:message" messageData;;
      ret (json [("success", VBool true); ("deliveredCount", num acc.2);
                 ("totalRecipients", num (js_length recipientIds));
                 ("results", results_value acc.1)])
  | _, _, _ => ret (bad_request "chatRoomId, recipientIds, and messageData are required")
  end.

(** POST /notify/chat/read (server.js 242-263) *)
Definition post_notify_chat_read (chatRoomId : option string) (userId messageId : value)
    (now : string) : M Response :=
  match required chatRoomId, truthy messageId with
  | Some chatRoomId, true =>
      io_to_emit ("chat-" +:+ chatRoomId) "chat:message-read"
        (VObj [("chatRoomId", VStr chatRoomId); ("messageId", messageId);
               ("readBy", userId); ("timestamp", VStr now)]);;
      ret (json [("success", VBool true)])
  | _, _ => ret (bad_request "chatRoomId and messageId are required")
  end.

Definition delivered_response (delivered : bool) : Response :=
  json [("success", VBool true); ("delivered", VBool delivered)].

(** POST /notify/call/incoming (server.js 266-293) *)
Definition post_notify_call_incoming (callId : value) (receiverId : option string)
    (callerData : value) (now : string) : M Response :=
  match truthy callId, required receiverId, truthy callerData with
  | true, Some receiverId, true =>
      let* receiverSocketId := gets (λ w, userConnections w !! receiverId) in
      if_truthy receiverSocketId
        (λ sid, io_to_emit sid "call:incoming"
                  (VObj [("callId", callId);
                         ("callerId", get_prop callerData "callerId");
                         ("callerName", get_prop callerData "callerName");
                         ("callerImage", get_prop callerData "callerImage");
                         ("timestamp", VStr now)]);;
                ret (delivered_response true))
        (ret (delivered_response false))
  | _, _, _ => ret (bad_request "callId, receiverId, and callerData are required")
  end.

(** The body shared by /notify/call/answered and /notify/call/rejected:
    the same code up to the event name. *)
Definition notify_caller (e : string) (callId : value) (callerId : option string)
    (now : string) : M Response :=
  match truthy callId, required callerId with
  | true, Some callerId =>
      let* callerSocketId := gets (λ w, userConnections w !! callerId) in
      if_truthy callerSocketId
        (λ sid, io_to_emit sid e (VObj [("callId", callId); ("timestamp", VStr now)]);;
                ret (delivered_response true))
        (ret (delivered_response false))
  | _, _ => ret (bad_request "callId and callerId are required")
  end.

(** POST /notify/call/answered (server.js 296-319) *)
Definition post_notify_call_answered := notify_caller "call:answered".

(** POST /notify/call/rejected (server.js 349-372) *)
Definition post_notify_call_rejected := notify_caller "call:rejected".

(** POST /notify/call/ended (server.js 322-346) *)
Definition post_notify_call_ended (callId : value) (userIds : ids) (now : string) : M Response :=
  match truthy callId, truthy_ids userIds with
  | true, true =>
      let* deliveredCount :=
        js_forEach userIds
          (λ userId deliveredCount,
             let* socketId := gets (λ w, userConnections w !! userId) in
             if_truthy socketId
               (λ sid, io_to_emit sid "call:ended"
                         (VObj [("callId", callId); ("timestamp", VStr now)]);;
                       ret (S deliveredCount))
               (ret deliveredCount))
          0 in
      ret (json [("success", VBool true); ("deliveredCount", num deliveredCount)])
  | _, _ => ret (bad_request "callId and userIds are required")
  end.

(** The lookup-and-send of /notify/user (server.js 387-396): whether the
    event was handed to a connection. *)
Definition sendToUser (userId : string) (event : string) (data : value) : M bool :=
  let* socketId := gets (λ w, userConnections w !! userId) in
  if_truthy socketId
    (λ sid, io_to_emit sid event data;; ret true)
    (ret false).

(** POST /notify/user (server.js 377-397) *)
Definition post_notify_user (userId event : option string) (data : value) : M Response :=
  match required userId, required event with
  | Some userId, Some event =>
      let* delivered := sendToUser userId event data in
      ret (delivered_response delivered)
  | _, _ => ret (bad_request "userId and event are required")
  end.

(** The loop of /notify/users (server.js 410-422): the [results] object
    and [deliveredCount]. *)
Definition sendToUsers (userIds : list string) (event : string) (data : value)
    : M (gmap string bool * nat) :=
  forEach userIds (fan_out_step event data) (∅, 0).

(** POST /notify/users (server.js 400-431) *)
Definition post_notify_users (userIds : ids) (event : option string) (data : value) : M Response :=
  match required_array userIds, required event with
  | Some userIds, Some event =>
      let* acc := sendToUsers userIds event data in
      ret (json [("success", VBool true); ("results", results_value acc.1);
                 ("deliveredCount", num acc.2); ("totalUsers", num (List.length userIds))])
  | _, _ => ret (bad_request "userIds (array) and event are required")
  end.

(** [Array.from(userRoles.entries()).filter(([_, userRole]) =>
    userRole.toLowerCase() === role.toLowerCase()).length] *)
Definition countByRole (w : World) (role : string) : nat :=
  List.length (filter (λ entry, toLowerCase entry.2 = toLowerCase role)
                 (map_to_list (userRoles w))).

(** The count-and-broadcast of /notify/role (server.js 444-448). *)
Definition sendToRole (role : string) (event : string) (data : value) : M nat :=
  let* usersInRole := gets (λ w, countByRole w role) in
  io_to_emit ("role-" +:+ role) event data;;
  ret usersInRole.

(** POST /notify/role (server.js 434-452) *)
Definition post_notify_role (role event : option string) (data : value) : M Response :=
  match required role, required event with
  | Some role, Some event =>
      let* usersInRole := sendToRole role event data in
      ret (json [("success", VBool true); ("usersCount", num usersInRole)])
  | _, _ => ret (bad_request "role and event are required")
  end.

(** POST /notify/all (server.js 455-469) *)
Definition post_notify_all (event : option string) (data : value) : M Response :=
  match required event with
  | Some event =>
      io_emit event data;;
      let* n := gets (λ w, size (userConnections w)) in
      ret (json [("success", VBool true); ("usersCount", num n)])
  | None => ret (bad_request "event is required")
  end.

(** A POST request: the route and the fields its handler destructures
    from [req.body]. *)
Inductive request : Type :=
| NotifyChatMessage (chatRoomId : option string) (recipientIds : ids) (messageData : value)
| NotifyChatRead (chatRoomId : option string) (userId messageId : value)
| NotifyCallIncoming (callId : value) (receiverId : option string) (callerData : value)
| NotifyCallAnswered (callId : value) (callerId : option string)
| NotifyCallEnded (callId : value) (userIds : ids)
| NotifyCallRejected (callId : value) (callerId : option string)
| NotifyUser (userId event : option string) (data : value)
| NotifyUsers (userIds : ids) (event : option string) (data : value)
| NotifyRole (role event : option string) (data : value)
| NotifyAll (event : option string) (data : value).

Definition route (req : request) (now : string) : M Response :=
  match req with
  | NotifyChatMessage c r m => post_notify_chat_message c r m
  | NotifyChatRead c u m => post_notify_chat_read c u m now
  | NotifyCallIncoming c r d => post_notify_call_incoming c r d now
  | NotifyCallAnswered c r => post_notify_call_answered c r now
  | NotifyCallEnded c us => post_notify_call_ended c us now
  | NotifyCallRejected c r => post_notify_call_rejected c r now
  | NotifyUser u e d => post_notify_user u e d
  | NotifyUsers us e d => post_notify_users us e d
  | NotifyRole r e d => post_notify_role r e d
  | NotifyAll e d => post_notify_all e d
  end.

(** Express runs the route; an exception thrown by it reaches the error
    middleware (server.js 548-554). *)
Definition express (req : request) (now : string) (w : World) : Response * World :=
  match route req now w with
  | (Returned res, w') => (res, w')
  | (Thrown message, w') =>
      (mkResponse 500 (VObj [("success", VBool false); ("error", VStr message)]), w')
  end.

(** ** The transport around the handlers, and the reachable worlds *)

(** A new socket is recorded, joins the room named by its id, and the
    "connection" handler runs. *)
Definition transport_connect (socket : Socket) : M unit :=
  modify (set_sockets (insert (id socket) socket));;
  socket_join (id socket) (id socket);;
  on_connection socket.

(** A closing socket leaves every room and is forgotten, then its
    "disconnect" listener runs. *)
Definition transport_disconnect (socket : Socket) (reason : string) : M unit :=
  modify (set_rooms (fmap (λ ms : gset string, ms ∖ {[id socket]})));;
  modify (set_sockets (delete (id socket)));;
  on_disconnect socket reason.

Fixpoint starts_with (p s : string) : bool :=
  match p with
  | EmptyString => true
  | String a p' =>
      match s with
      | EmptyString => false
      | String b s' => Ascii.eqb a b && starts_with p' s'
      end
  end.

(** The names of the rooms the handlers join. *)
Definition app_room (name : string) : bool :=
  starts_with "role-" name || starts_with "user-" name || starts_with "chat-" name.

(** An event sent by a client on its socket. *)
Inductive message : Type :=
| ChatJoinRoom (data : option ChatData)
| ChatLeaveRoom (data : option ChatData)
| ChatTyping (data : option ChatData)
| ChatStopTyping (data : option ChatData)
| CallOffer (data : option OfferData)
| CallAnswer (data : option AnswerData)
| CallIceCandidate (data : option IceData)
| Ping.

Definition listener (socket : Socket) (now : string) (msg : message) : M unit :=
  match msg with
  | ChatJoinRoom data => on_chat_join_room socket now data
  | ChatLeaveRoom data => on_chat_leave_room socket now data
  | ChatTyping data => on_chat_typing socket now data
  | ChatStopTyping data => on_chat_stop_typing socket now data
  | CallOffer data => on_call_offer socket now data
  | CallAnswer data => on_call_answer socket now data
  | CallIceCandidate data => on_call_ice_candidate socket now data
  | Ping => on_ping socket now
  end.

(** What the event loop takes one at a time. *)
Inductive input : Type :=
| Connect (socket : Socket)
| Receive (sid : string) (msg : message) (now : string)
| Disconnect (sid : string) (reason : string)
| Post (req : request) (now : string).

(** The transport hands out non-empty socket ids that are not in use and
    do not look like one of the server's room names; clients send, and
    close, on connected sockets only. *)
Definition accepts (w : World) (i : input) : bool :=
  match i with
  | Connect socket =>
      truthy_str (id socket) && negb (app_room (id socket))
      && bool_decide (sockets w !! id socket = None)
  | Receive sid _ _ | Disconnect sid _ => bool_decide (is_Some (sockets w !! sid))
  | Post _ _ => true
  end.

Definition exec (i : input) (w : World) : World :=
  match i with
  | Connect socket => (transport_connect socket w).2
  | Receive sid msg now =>
      match sockets w !! sid with
      | Some socket => (listener socket now msg w).2
      | None => w
      end
  | Disconnect sid reason =>
      match sockets w !! sid with
      | Some socket => (transport_disconnect socket reason w).2
      | None => w
      end
  | Post req now => (express req now w).2
  end.

Inductive reachable : World → Prop :=
| reachable_initial : reachable initial
| reachable_step (w : World) (i : input) :
    reachable w → accepts w i = true → reachable (exec i w).

(** Running a script of inputs; [None] when the transport would not have
    produced one of them. *)
Fixpoint run (script : list input) (w : World) : option World :=
  match script with
  | [] => Some w
  | i :: rest => if accepts w i then run rest (exec i w) else None
  end.

(** The spec's [resolve]. *)
Definition resolve (w : World) (userId : string) : option string :=
  userConnections w !! userId.

(** ** Notions used by the statements *)

(** A computation that leaves the maps, the sockets and the rooms alone:
    all it does to the world is append deliveries. *)
Definition emits_only {A} (m : M A) : Prop :=
  ∀ w, ∃ ds, (m w).2 = push ds w.

(** A user id is mapped to a live connection: it resolves to the id of a
    connected socket. *)
Definition live (w : World) (userId : string) : Prop :=
  ∃ c, resolve w userId = Some c ∧ is_Some (sockets w !! c).

(** [live] can be decided from the two maps. *)
#[global] Instance live_dec (w : World) (u : string) : Decision (live w u).
Proof.
  unfold live. destruct (resolve w u) as [c|].
  - destruct (decide (is_Some (sockets w !! c))) as [Hc|Hc].
    + left. by exists c.
    + right. intros (c' & [= <-] & Hc'). by apply Hc.
  - right. intros (c' & [=] & _).
Defined.

(** Whether [userConnections.get(userId)] finds an entry. *)
Definition resolved (w : World) (userId : string) : bool :=
  bool_decide (is_Some (resolve w userId)).

(** The delivery a fan-out loop makes for one user id, if it resolves. *)
Definition notified (w : World) (event : string) (data : value) (userId : string)
    : option Delivery :=
  (λ c, mkDelivery c event data) <$> resolve w userId.

(** The [results] object after the loop went through [userIds]. *)
Definition record_all (w : World) (userIds : list string) (results : gmap string bool)
    : gmap string bool :=
  foldl (λ r u, obj_set u (resolved w u) r) results userIds.

(** Absence of a body field. *)
Definition undefined_field (f : option string) : bool :=
  match f with None => true | Some _ => false end.

Definition undefined_ids (x : ids) : bool :=
  match x with IdsUndefined => true | _ => false end.

Definition undefined_value (v : value) : bool :=
  match v with VUndefined => true | _ => false end.

(** A field the route names as required is absent from the body. *)
Definition required_field_absent (req : request) : bool :=
  match req with
  | NotifyChatMessage chatRoomId recipientIds messageData =>
      undefined_field chatRoomId || undefined_ids recipientIds || undefined_value messageData
  | NotifyChatRead chatRoomId _ messageId =>
      undefined_field chatRoomId || undefined_value messageId
  | NotifyCallIncoming callId receiverId callerData =>
      undefined_value callId || undefined_field receiverId || undefined_value callerData
  | NotifyCallAnswered callId callerId | NotifyCallRejected callId callerId =>
      undefined_value callId || undefined_field callerId
  | NotifyCallEnded callId userIds =>
      undefined_value callId || undefined_ids userIds
  | NotifyUser userId event _ =>
      undefined_field userId || undefined_field event
  | NotifyUsers userIds event _ =>
      undefined_ids userIds || undefined_field event
  | NotifyRole role event _ =>
      undefined_field role || undefined_field event
  | NotifyAll event _ =>
      undefined_field event
  end.

(** The error text of each route's 400 response. *)
Definition validation_error (req : request) : string :=
  match req with
  | NotifyChatMessage _ _ _ => "chatRoomId, recipientIds, and messageData are required"
  | NotifyChatRead _ _ _ => "chatRoomId and messageId are required"
  | NotifyCallIncoming _ _ _ => "callId, receiverId, and callerData are required"
  | NotifyCallAnswered _ _ | NotifyCallRejected _ _ => "callId and callerId are required"
  | NotifyCallEnded _ _ => "callId and userIds are required"
  | NotifyUser _ _ _ => "userId and event are required"
  | NotifyUsers _ _ _ => "userIds (array) and event are required"
  | NotifyRole _ _ _ => "role and event are required"
  | NotifyAll _ _ => "event is required"
  end.

(** One user, two connections: the worlds used as concrete inputs. *)
Module Scenario.

Definition socketA : Socket := mkSocket "sockA" (Some "u1") (Some "Driver").
Definition socketB : Socket := mkSocket "sockB" (Some "u1") (Some "Driver").
Definition socketC : Socket := mkSocket "sockC" (Some "u2") None.

(* u1 connected once *)
Definition w_A : World := exec (Connect socketA) initial.
(* u1 connected a second time while the first socket is still open *)
Definition w_AB : World := exec (Connect socketB) w_A.
(* u1 on sockA, u2 on sockC *)
Definition w_AC : World := exec (Connect socketC) w_A.

End Scenario.

(** ** Notions used by the further properties *)






(** How the role rooms, the personal rooms and the role map follow the
    connected sockets. *)
Record wf_rooms (w : World) : Prop := mkWfRooms {
  wfr_role : ∀ r c, c ∈ members w ("role-" +:+ r)
                    ↔ ∃ s, sockets w !! c = Some s ∧ role_of s = r;
  wfr_user : ∀ u c, c ∈ members w ("user-" +:+ u)
                    ↔ ∃ s, sockets w !! c = Some s ∧ userId_of s = u;
  wfr_stored : ∀ u c s, userConnections w !! u = Some c → sockets w !! c = Some s
                        → userRoles w !! u = Some (role_of s);
}.

(** The deliveries made between two worlds of one run. *)
Definition sent (w w' : World) : list Delivery :=
  drop (List.length (outbox w)) (outbox w').

(** From a world whose rooms hold connected sockets only, the computation
    only appends deliveries, each to a connected socket or to a socket in
    [S]. *)
Definition delivers_to_connected (S : string → Prop) {A} (m : M A) : Prop :=
  ∀ w, (∀ room c, c ∈ members w room → is_Some (sockets w !! c)) →
    ∃ ds, (m w).2 = push ds w
          ∧ ∀ d, d ∈ ds → S (dest d) ∨ is_Some (sockets w !! dest d).

(** * Properties *)

(** ** Basic facts about the operations *)

Lemma push_push (ds1 ds2 : list Delivery) (w : World) :
  push ds2 (push ds1 w) = push (ds1 ++ ds2) w.
Proof. unfold push; simpl. by rewrite app_assoc. Qed.

Lemma push_nil (w : World) : push [] w = w.
Proof. destruct w; unfold push; simpl. by rewrite app_nil_r. Qed.

Lemma members_insert (w : World) (room room0 : string) (X : gset string) :
  members (set_rooms (insert room X) w) room0
  = if decide (room = room0) then X else members w room0.
Proof.
  unfold members; simpl. rewrite lookup_insert. by case_decide.
Qed.

Lemma elem_of_members_leave_all (w : World) (sid room c : string) :
  c ∈ members (set_rooms (fmap (λ ms : gset string, ms ∖ {[sid]})) w) room
  ↔ c ∈ members w room ∧ c ≠ sid.
Proof.
  unfold members; simpl. rewrite lookup_fmap.
  destruct (rooms w !! room) as [ms|]; simpl.
  - by rewrite elem_of_difference, elem_of_singleton.
  - rewrite elem_of_empty. tauto.
Qed.

Lemma truthy_str_nonempty (s : string) : truthy_str s = true ↔ s ≠ "".
Proof. destruct s; simpl; split; congruence. Qed.

Lemma required_Some (f : option string) (s : string) :
  required f = Some s ↔ f = Some s ∧ truthy_str s = true.
Proof.
  unfold required. destruct f as [t|].
  - destruct (truthy_str t) eqn:E; split.
    + intros [= ->]. done.
    + intros [[= ->] _]. done.
    + discriminate.
    + intros [[= ->] ?]. congruence.
  - split; [discriminate | intros [? _]; discriminate].
Qed.

Lemma app_room_role (r : string) : app_room ("role-" +:+ r) = true.
Proof. reflexivity. Qed.

Lemma app_room_user (u : string) : app_room ("user-" +:+ u) = true.
Proof. reflexivity. Qed.

Lemma app_room_chat (c : string) : app_room ("chat-" +:+ c) = true.
Proof. reflexivity. Qed.

(** ** Handlers that only emit *)

Lemma emits_only_ret {A} (a : A) : emits_only (ret a).
Proof. intros w. exists []. by rewrite push_nil. Qed.

Lemma emits_only_throw {A} (e : string) : emits_only (@throw A e).
Proof. intros w. exists []. by rewrite push_nil. Qed.

Lemma emits_only_gets {A} (f : World → A) : emits_only (gets f).
Proof. intros w. exists []. by rewrite push_nil. Qed.

Lemma emits_only_bind {A B} (m : M A) (k : A → M B) :
  emits_only m → (∀ a, emits_only (k a)) → emits_only (bind m k).
Proof.
  intros Hm Hk w. unfold bind.
  destruct (Hm w) as [ds1 E1].
  destruct (m w) as [[a|e] w1]; simpl in E1; subst w1.
  - destruct (Hk a (push ds1 w)) as [ds2 E2].
    exists (ds1 ++ ds2). by rewrite E2, push_push.
  - by exists ds1.
Qed.

Lemma emits_only_socket_emit (sid e : string) (a : value) :
  emits_only (socket_emit sid e a).
Proof. intros w. by eexists. Qed.

Lemma emits_only_socket_to_emit (sid room e : string) (a : value) :
  emits_only (socket_to_emit sid room e a).
Proof. intros w. by eexists. Qed.

Lemma emits_only_io_to_emit (room e : string) (a : value) :
  emits_only (io_to_emit room e a).
Proof. intros w. by eexists. Qed.

Lemma emits_only_io_emit (e : string) (a : value) : emits_only (io_emit e a).
Proof. intros w. by eexists. Qed.

Lemma emits_only_if_truthy {A} (x : option string) (t : string → M A) (e : M A) :
  (∀ s, emits_only (t s)) → emits_only e → emits_only (if_truthy x t e).
Proof.
  intros Ht He. unfold if_truthy.
  destruct x as [s|]; [destruct (truthy_str s)|]; auto.
Qed.

Lemma emits_only_forEach {A S} (xs : list A) (f : A → S → M S) (acc : S) :
  (∀ x s, emits_only (f x s)) → emits_only (forEach xs f acc).
Proof.
  intros Hf. revert acc.
  induction xs as [|x xs IH]; intros acc; simpl.
  - apply emits_only_ret.
  - apply emits_only_bind; auto.
Qed.

Lemma emits_only_js_forEach {S} (x : ids) (f : string → S → M S) (acc : S) :
  (∀ u s, emits_only (f u s)) → emits_only (js_forEach x f acc).
Proof.
  intros Hf. destruct x; simpl;
    auto using emits_only_throw, emits_only_forEach.
Qed.

Lemma emits_only_destructure {A} (data : option A) : emits_only (destructure data).
Proof. destruct data; [apply emits_only_ret | apply emits_only_throw]. Qed.

Create HintDb emits.
#[local] Hint Resolve emits_only_ret emits_only_throw emits_only_gets
  emits_only_socket_emit emits_only_socket_to_emit emits_only_io_to_emit
  emits_only_io_emit emits_only_destructure : emits.

Ltac emits :=
  repeat first
    [ progress intros
    | apply emits_only_bind
    | apply emits_only_if_truthy
    | apply emits_only_forEach
    | apply emits_only_js_forEach
    | solve [auto with emits] ].

Lemma emits_only_fan_out_step (event : string) (data : value) (userId : string)
    (acc : gmap string bool * nat) :
  emits_only (fan_out_step event data userId acc).
Proof. unfold fan_out_step. emits. Qed.

Lemma emits_only_sendToUser (userId event : string) (data : value) :
  emits_only (sendToUser userId event data).
Proof. unfold sendToUser. emits. Qed.

Lemma emits_only_sendToUsers (userIds : list string) (event : string) (data : value) :
  emits_only (sendToUsers userIds event data).
Proof. unfold sendToUsers. apply emits_only_forEach. intros. apply emits_only_fan_out_step. Qed.

Lemma emits_only_sendToRole (role event : string) (data : value) :
  emits_only (sendToRole role event data).
Proof. unfold sendToRole. emits. Qed.

Lemma emits_only_route (req : request) (now : string) : emits_only (route req now).
Proof.
  destruct req; simpl;
    unfold post_notify_chat_message, post_notify_chat_read, post_notify_call_incoming,
      post_notify_call_answered, post_notify_call_rejected, notify_caller,
      post_notify_call_ended, post_notify_user, post_notify_users, post_notify_role,
      post_notify_all;
    repeat case_match; emits;
    auto using emits_only_fan_out_step, emits_only_sendToUser,
      emits_only_sendToUsers, emits_only_sendToRole.
Qed.

Lemma express_emits_only (req : request) (now : string) (w : World) :
  ∃ ds, (express req now w).2 = push ds w.
Proof.
  destruct (emits_only_route req now w) as [ds E]. exists ds.
  unfold express. by destruct (route req now w) as [[res|e] w'].
Qed.

(** ** The invariant of the reachable worlds *)

Record wf (w : World) : Prop := mkWf {
  (* a forward entry has its reverse entry *)
  wf_forward : ∀ u c, userConnections w !! u = Some c → socketUsers w !! c = Some u;
  (* the reverse index holds exactly the connected sockets, each under the
     user id its handler closed over *)
  wf_reverse : ∀ c u, socketUsers w !! c = Some u
                      ↔ ∃ socket, sockets w !! c = Some socket ∧ u = userId_of socket;
  (* sockets are stored under their id; ids are non-empty and are not
     room names of the server *)
  wf_socket_id : ∀ c socket, sockets w !! c = Some socket
                             → id socket = c ∧ truthy_str c = true ∧ app_room c = false;
  (* a role is stored exactly for the users with a forward entry *)
  wf_roles : ∀ u, is_Some (userRoles w !! u) ↔ is_Some (userConnections w !! u);
  (* rooms: a connected socket is in the room named by its id, only the
     server's rooms have other members, and members are connected *)
  wf_own_room : ∀ c, is_Some (sockets w !! c) → c ∈ members w c;
  wf_room_names : ∀ room c, c ∈ members w room → c = room ∨ app_room room = true;
  wf_members : ∀ room c, c ∈ members w room → is_Some (sockets w !! c);
}.

Lemma wf_push (ds : list Delivery) (w : World) : wf w → wf (push ds w).
Proof. intros [H1 H2 H3 H4 H5 H6 H7]. by constructor. Qed.

Lemma wf_initial : wf initial.
Proof.
  constructor; simpl; unfold members; simpl; intros.
  - by rewrite lookup_empty in *.
  - rewrite lookup_empty. split; [done|]. intros (s & Hs & _).
    by rewrite lookup_empty in Hs.
  - by rewrite lookup_empty in *.
  - rewrite !lookup_empty. split; intros [? ?]; done.
  - rewrite lookup_empty in *. by destruct H.
  - rewrite lookup_empty in *. simpl in *. by apply elem_of_empty in H.
  - rewrite lookup_empty in *. simpl in *. by apply elem_of_empty in H.
Qed.

(** The room named by a connected socket's id holds that socket alone. *)
Lemma wf_own_room_singleton (w : World) (c : string) :
  wf w → is_Some (sockets w !! c) → members w c = {[c]}.
Proof.
  intros Hwf [socket Hc]. apply set_eq. intros x. rewrite elem_of_singleton. split.
  - intros Hx. destruct (wf_room_names w Hwf c x Hx) as [->|Happ]; [done|].
    destruct (wf_socket_id w Hwf c socket Hc) as (_ & _ & Hn). congruence.
  - intros ->. apply (wf_own_room w Hwf). by exists socket.
Qed.

(** A resolved user id gives a connected socket with a truthy id. *)
Lemma wf_resolve_connected (w : World) (u c : string) :
  wf w → userConnections w !! u = Some c →
  ∃ socket, sockets w !! c = Some socket ∧ userId_of socket = u ∧ truthy_str c = true.
Proof.
  intros Hwf Hu.
  apply (wf_forward w Hwf) in Hu. apply (wf_reverse w Hwf) in Hu.
  destruct Hu as (socket & Hs & ->). exists socket.
  destruct (wf_socket_id w Hwf c socket Hs) as (_ & Ht & _). done.
Qed.

Lemma elem_of_members_join (w : World) (sid room room0 c : string) :
  c ∈ members (socket_join sid room w).2 room0
  ↔ (room0 = room ∧ c = sid) ∨ c ∈ members w room0.
Proof.
  unfold socket_join, modify; simpl. rewrite members_insert.
  case_decide as E.
  - subst. rewrite elem_of_union, elem_of_singleton. tauto.
  - split; [tauto|]. intros [[-> _]|?]; done.
Qed.

Lemma wf_socket_join (w : World) (sid room : string) :
  wf w → is_Some (sockets w !! sid) → room = sid ∨ app_room room = true →
  wf (socket_join sid room w).2.
Proof.
  intros Hwf Hsid Hroom.
  constructor.
  - apply (wf_forward w Hwf).
  - apply (wf_reverse w Hwf).
  - apply (wf_socket_id w Hwf).
  - apply (wf_roles w Hwf).
  - intros c Hc. apply elem_of_members_join. right. by apply (wf_own_room w Hwf).
  - intros room0 c Hc. apply elem_of_members_join in Hc as [[-> ->]|Hc].
    + destruct Hroom; auto.
    + by apply (wf_room_names w Hwf).
  - intros room0 c Hc. apply elem_of_members_join in Hc as [[-> ->]|Hc].
    + done.
    + by apply (wf_members w Hwf room0).
Qed.

Lemma wf_transport_connect (socket : Socket) (w : World) :
  wf w → accepts w (Connect socket) = true → wf (transport_connect socket w).2.
Proof.
  intros Hwf Hacc. simpl in Hacc.
  apply andb_true_iff in Hacc as [Hacc Hfresh].
  apply andb_true_iff in Hacc as [Hne Happ].
  apply negb_true_iff in Happ. apply bool_decide_eq_true in Hfresh.
  set (sid := id socket) in *. set (u := userId_of socket).
  pose (w1 := mkWorld (<[u := sid]> (userConnections w)) (<[u := role_of socket]> (userRoles w))
                (<[sid := u]> (socketUsers w)) (<[sid := socket]> (sockets w))
                (<[sid := {[sid]} ∪ members w sid]> (rooms w)) (outbox w)).
  assert (Hw1 : wf w1).
  { assert (Hsu : socketUsers w !! sid = None).
    { destruct (socketUsers w !! sid) as [u0|] eqn:E; [|done].
      apply (wf_reverse w Hwf) in E as (s0 & Hs0 & _). congruence. }
    assert (Hempty : ∀ c, c ∉ members w sid).
    { intros c Hc. pose proof (wf_members w Hwf _ _ Hc) as [s0 Hs0].
      destruct (wf_room_names w Hwf _ _ Hc) as [->|?]; congruence. }
    constructor; simpl.
    - intros u0 c. rewrite lookup_insert. case_decide as E.
      + intros [= <-]. rewrite lookup_insert_eq. by rewrite E.
      + intros Hu0. pose proof (wf_forward w Hwf _ _ Hu0) as Hc.
        rewrite lookup_insert_ne; [done|]. intros <-. congruence.
    - intros c u0. rewrite !lookup_insert. case_decide as E.
      + split.
        * intros [= <-]. by exists socket.
        * intros (s0 & [= <-] & ->). done.
      + apply (wf_reverse w Hwf).
    - intros c s0. rewrite lookup_insert. case_decide as E.
      + intros [= <-]. subst c. done.
      + apply (wf_socket_id w Hwf).
    - intros u0. rewrite !lookup_insert. case_decide as E.
      + split; intros _; by eexists.
      + apply (wf_roles w Hwf).
    - intros c. rewrite lookup_insert. unfold members; simpl. rewrite lookup_insert.
      case_decide as E.
      + intros _. simpl. apply elem_of_union_l. by apply elem_of_singleton.
      + apply (wf_own_room w Hwf).
    - intros room c. unfold members; simpl. rewrite lookup_insert.
      case_decide as E.
      + simpl. rewrite elem_of_union, elem_of_singleton. intros [->|Hc]; [by left|].
        by apply Hempty in Hc.
      + apply (wf_room_names w Hwf).
    - intros room c. unfold members; simpl. rewrite !lookup_insert.
      case_decide as E.
      + simpl. rewrite elem_of_union, elem_of_singleton. intros [->|Hc].
        * rewrite decide_True by done. by eexists.
        * by apply Hempty in Hc.
      + intros Hc. case_decide; [by eexists|]. by apply (wf_members w Hwf room). }
  assert (Hs1 : is_Some (sockets w1 !! sid)).
  { simpl. rewrite lookup_insert_eq. by eexists. }
  change (transport_connect socket w).2 with
    (socket_join sid ("user-" +:+ u) (socket_join sid ("role-" +:+ role_of socket) w1).2).2.
  apply wf_socket_join.
  - apply wf_socket_join; [done|done|]. right. apply app_room_role.
  - done.
  - right. apply app_room_user.
Qed.

Lemma transport_disconnect_world (socket : Socket) (reason : string) (w : World) :
  transport_disconnect socket reason w
  = (Returned tt,
     mkWorld (map_delete (socketUsers w !! id socket) (userConnections w))
             (map_delete (socketUsers w !! id socket) (userRoles w))
             (delete (id socket) (socketUsers w))
             (delete (id socket) (sockets w))
             ((λ ms : gset string, ms ∖ {[id socket]}) <$> rooms w)
             (outbox w)).
Proof. reflexivity. Qed.

Lemma transport_disconnect_eq (socket : Socket) (reason : string) (w : World) :
  wf w → sockets w !! id socket = Some socket →
  transport_disconnect socket reason w
  = (Returned tt,
     mkWorld (delete (userId_of socket) (userConnections w))
             (delete (userId_of socket) (userRoles w))
             (delete (id socket) (socketUsers w))
             (delete (id socket) (sockets w))
             ((λ ms : gset string, ms ∖ {[id socket]}) <$> rooms w)
             (outbox w)).
Proof.
  intros Hwf Hs.
  assert (Hu : socketUsers w !! id socket = Some (userId_of socket)).
  { apply (wf_reverse w Hwf). by exists socket. }
  by rewrite transport_disconnect_world, Hu.
Qed.

Lemma wf_transport_disconnect (socket : Socket) (reason : string) (w : World) :
  wf w → sockets w !! id socket = Some socket →
  wf (transport_disconnect socket reason w).2.
Proof.
  intros Hwf Hs. rewrite transport_disconnect_eq by done. simpl.
  set (sid := id socket) in *. set (u := userId_of socket).
  assert (Hu : socketUsers w !! sid = Some u).
  { apply (wf_reverse w Hwf). by exists socket. }
  constructor; simpl.
  - intros u0 c. rewrite lookup_delete. case_decide as E; [done|].
    intros Hu0. pose proof (wf_forward w Hwf _ _ Hu0) as Hc.
    rewrite lookup_delete_ne; [done|]. intros <-. congruence.
  - intros c u0. rewrite !lookup_delete. case_decide as E.
    + split; [done|]. by intros (s0 & ? & _).
    + apply (wf_reverse w Hwf).
  - intros c s0. rewrite lookup_delete. case_decide as E; [done|].
    apply (wf_socket_id w Hwf).
  - intros u0. rewrite !lookup_delete. case_decide as E.
    + split; intros [? ?]; done.
    + apply (wf_roles w Hwf).
  - intros c. rewrite lookup_delete. case_decide as E; [by intros [? ?]|].
    intros Hc. apply elem_of_members_leave_all. split; [|done].
    by apply (wf_own_room w Hwf).
  - intros room c Hc. apply elem_of_members_leave_all in Hc as [Hc _].
    by apply (wf_room_names w Hwf).
  - intros room c Hc. apply elem_of_members_leave_all in Hc as [Hc Hne].
    rewrite lookup_delete_ne by done. by apply (wf_members w Hwf room).
Qed.

Lemma elem_of_members_leave (w : World) (sid room room0 c : string) :
  c ∈ members (socket_leave sid room w).2 room0
  ↔ c ∈ members w room0 ∧ ¬ (room0 = room ∧ c = sid).
Proof.
  unfold socket_leave, modify; simpl. rewrite members_insert.
  case_decide as E.
  - subst. rewrite elem_of_difference, elem_of_singleton. tauto.
  - split; [|tauto]. intros Hc. split; [done|]. intros [-> _]. done.
Qed.

Lemma wf_socket_leave (w : World) (sid room : string) :
  wf w → app_room room = true → wf (socket_leave sid room w).2.
Proof.
  intros Hwf Hroom.
  constructor.
  - apply (wf_forward w Hwf).
  - apply (wf_reverse w Hwf).
  - apply (wf_socket_id w Hwf).
  - apply (wf_roles w Hwf).
  - intros c Hc. apply elem_of_members_leave. split.
    + by apply (wf_own_room w Hwf).
    + intros [-> _]. destruct Hc as [s0 Hs0].
      destruct (wf_socket_id w Hwf _ _ Hs0) as (_ & _ & ?). congruence.
  - intros room0 c Hc. apply elem_of_members_leave in Hc as [Hc _].
    by apply (wf_room_names w Hwf).
  - intros room0 c Hc. apply elem_of_members_leave in Hc as [Hc _].
    by apply (wf_members w Hwf room0).
Qed.

Lemma wf_emits_only {A} (m : M A) (w : World) :
  emits_only m → wf w → wf (m w).2.
Proof. intros Hm Hwf. destruct (Hm w) as [ds ->]. by apply wf_push. Qed.

Lemma emits_only_listener (socket : Socket) (now : string) (msg : message) :
  match msg with ChatJoinRoom _ | ChatLeaveRoom _ => False | _ => True end →
  emits_only (listener socket now msg).
Proof.
  destruct msg; simpl; try done; intros _;
    unfold on_chat_typing, on_chat_stop_typing, on_call_offer, on_call_answer,
      on_call_ice_candidate, on_ping;
    emits; try case_match; emits.
Qed.

Lemma wf_listener (socket : Socket) (now : string) (msg : message) (w : World) :
  wf w → sockets w !! id socket = Some socket → wf (listener socket now msg w).2.
Proof.
  intros Hwf Hs.
  destruct msg as [[d|]|[d|]|d|d|d|d|d|];
    try (apply wf_emits_only; [by apply emits_only_listener | done]);
    try exact Hwf.
  - apply wf_push.
    apply (wf_socket_join w (id socket) ("chat-" +:+ interpolate (chatRoomId d)) Hwf).
    + by eexists.
    + right. apply app_room_chat.
  - apply wf_push.
    apply (wf_socket_leave w (id socket) ("chat-" +:+ interpolate (chatRoomId d)) Hwf).
    apply app_room_chat.
Qed.

Lemma wf_exec (w : World) (i : input) : wf w → accepts w i = true → wf (exec i w).
Proof.
  intros Hwf Hacc. destruct i as [socket|sid msg now|sid reason|req now]; simpl.
  - by apply wf_transport_connect.
  - destruct (sockets w !! sid) as [socket|] eqn:Hs; [|done].
    destruct (wf_socket_id w Hwf _ _ Hs) as (<- & _ & _).
    by apply (wf_listener socket now msg).
  - destruct (sockets w !! sid) as [socket|] eqn:Hs; [|done].
    destruct (wf_socket_id w Hwf _ _ Hs) as (<- & _ & _).
    by apply (wf_transport_disconnect socket reason).
  - destruct (express_emits_only req now w) as [ds ->]. by apply wf_push.
Qed.

Theorem reachable_wf (w : World) : reachable w → wf w.
Proof.
  induction 1 as [|w i _ IH Hacc]; [apply wf_initial | by apply wf_exec].
Qed.

(** ** Facts shared by the statements below *)

Lemma reachable_run (script : list input) (w w' : World) :
  reachable w → run script w = Some w' → reachable w'.
Proof.
  revert w. induction script as [|i rest IH]; intros w Hw; simpl.
  - by intros [= <-].
  - destruct (accepts w i) eqn:Hacc; [|done].
    apply IH. by apply reachable_step.
Qed.

Lemma reachable_w_A : reachable Scenario.w_A.
Proof.
  apply (reachable_run [Connect Scenario.socketA] initial);
    [apply reachable_initial | reflexivity].
Qed.

Lemma reachable_w_AB : reachable Scenario.w_AB.
Proof.
  apply (reachable_run [Connect Scenario.socketA; Connect Scenario.socketB] initial);
    [apply reachable_initial | vm_compute; reflexivity].
Qed.

Lemma on_connection_eq (socket : Socket) (w : World) :
  ∃ rooms',
    on_connection socket w
    = (Returned tt,
       mkWorld (<[userId_of socket := id socket]> (userConnections w))
               (<[userId_of socket := role_of socket]> (userRoles w))
               (<[id socket := userId_of socket]> (socketUsers w))
               (sockets w) rooms' (outbox w)).
Proof. eexists. reflexivity. Qed.

Lemma transport_connect_fields (socket : Socket) (w : World) :
  let w' := (transport_connect socket w).2 in
  userConnections w' = <[userId_of socket := id socket]> (userConnections w)
  ∧ userRoles w' = <[userId_of socket := role_of socket]> (userRoles w)
  ∧ socketUsers w' = <[id socket := userId_of socket]> (socketUsers w)
  ∧ sockets w' = <[id socket := socket]> (sockets w)
  ∧ outbox w' = outbox w
  ∧ id socket ∈ members w' (id socket).
Proof.
  simpl. repeat split.
  change (transport_connect socket w).2 with
    (socket_join (id socket) ("user-" +:+ userId_of socket)
       (socket_join (id socket) ("role-" +:+ role_of socket)
          (set_userRoles (insert (userId_of socket) (role_of socket))
            (set_socketUsers (insert (id socket) (userId_of socket))
              (set_userConnections (insert (userId_of socket) (id socket))
                (socket_join (id socket) (id socket)
                   (set_sockets (insert (id socket) socket) w)).2)))).2).2.
  apply elem_of_members_join. right. apply elem_of_members_join. right.
  unfold members at 1. simpl. rewrite lookup_insert_eq. simpl.
  apply elem_of_union_l. by apply elem_of_singleton.
Qed.

Lemma userId_of_truthy (socket : Socket) : truthy_str (userId_of socket) = true.
Proof.
  unfold userId_of, or_else. destruct (auth_userId socket) as [s|]; [|done].
  by destruct (truthy_str s) eqn:E.
Qed.

Lemma sendToUser_unresolved (w : World) (userId event : string) (data : value) :
  resolve w userId = None → sendToUser userId event data w = (Returned false, w).
Proof.
  unfold resolve, sendToUser, bind, gets. intros ->. done.
Qed.

Lemma required_truthy (s : string) : truthy_str s = true → required (Some s) = Some s.
Proof. intros H. unfold required. by rewrite H. Qed.

Lemma express_notify_user_unresolved (w : World) (userId event now : string) (data : value) :
  truthy_str userId = true → truthy_str event = true → resolve w userId = None →
  express (NotifyUser (Some userId) (Some event) data) now w
  = (delivered_response false, w).
Proof.
  intros Hu He Hres. unfold express, route, post_notify_user.
  rewrite !required_truthy by done. unfold bind.
  by rewrite sendToUser_unresolved.
Qed.


Lemma reachable_w_AC : reachable Scenario.w_AC.
Proof.
  apply (reachable_run [Connect Scenario.socketA; Connect Scenario.socketC] initial);
    [apply reachable_initial | vm_compute; reflexivity].
Qed.

(** ** Registering a user id twice *)

(** C1, as the code has it: when user id U is registered with connection A
    and the connection handler runs for another connection B of the same
    user, [resolve U] becomes B and B gets its reverse entry, while the
    reverse entry of A is kept: A's connection id still maps back to U. *)
Theorem reregister_keeps_old_reverse_entry (w : World) (socket : Socket) (a : string) :
  let U := userId_of socket in
  resolve w U = Some a →
  socketUsers w !! a = Some U →
  a ≠ id socket →
  let w' := (on_connection socket w).2 in
  (on_connection socket w).1 = Returned tt
  ∧ resolve w' U = Some (id socket)
  ∧ socketUsers w' !! id socket = Some U
  ∧ socketUsers w' !! a = Some U.
Proof.
  intros U Hres Hrev Hne w'. subst w'.
  destruct (on_connection_eq socket w) as [rooms' ->]. simpl. unfold resolve. simpl.
  rewrite !lookup_insert_eq, lookup_insert_ne by done. done.
Qed.


Lemma reregister_keeps_old_reverse_entry_witness :
  resolve Scenario.w_A "u1" = Some "sockA"
  ∧ socketUsers Scenario.w_A !! "sockA" = Some "u1"
  ∧ "sockA" ≠ "sockB"
  ∧ resolve (on_connection Scenario.socketB Scenario.w_A).2 "u1" = Some "sockB"
  ∧ socketUsers (on_connection Scenario.socketB Scenario.w_A).2 !! "sockA" = Some "u1".
Proof.
  assert (H1 : resolve Scenario.w_A (userId_of Scenario.socketB) = Some "sockA")
    by (vm_compute; reflexivity).
  assert (H2 : socketUsers Scenario.w_A !! "sockA" = Some (userId_of Scenario.socketB))
    by (vm_compute; reflexivity).
  assert (H3 : "sockA" ≠ id Scenario.socketB) by discriminate.
  destruct (reregister_keeps_old_reverse_entry Scenario.w_A Scenario.socketB "sockA" H1 H2 H3)
    as (_ & R1 & _ & R2).
  exact (conj H1 (conj H2 (conj H3 (conj R1 R2)))).
Defined.

(** C1 as stated fails: u1 is registered with sockA, the handler runs
    for sockB of the same user, and sockA's reverse entry is still there. *)
Lemma reregister_discards_old_reverse_entry_fails :
  reachable Scenario.w_A
  ∧ resolve Scenario.w_A "u1" = Some "sockA"
  ∧ socketUsers Scenario.w_A !! "sockA" = Some "u1"
  ∧ accepts Scenario.w_A (Connect Scenario.socketB) = true
  ∧ userId_of Scenario.socketB = "u1"
  ∧ resolve (on_connection Scenario.socketB Scenario.w_A).2 "u1" = Some "sockB"
  ∧ socketUsers (on_connection Scenario.socketB Scenario.w_A).2 !! "sockA" ≠ None.
Proof.
  split; [apply reachable_w_A|]. vm_compute. repeat split; try reflexivity. discriminate.
Qed.

(** C2: user U connects with A, connects again with B, then A disconnects:
    [resolve U] is absent afterwards and sending to U reports
    [delivered: false], although B is still connected and in its room. *)
Theorem stale_disconnect_unregisters_live_user
    (w : World) (A B : Socket) (reason : string) :
  accepts w (Connect A) = true →
  let w1 := exec (Connect A) w in
  accepts w1 (Connect B) = true →
  userId_of B = userId_of A →
  let U := userId_of A in
  let w2 := exec (Connect B) w1 in
  let w3 := exec (Disconnect (id A) reason) w2 in
  resolve w2 U = Some (id B)
  ∧ accepts w2 (Disconnect (id A) reason) = true
  ∧ resolve w3 U = None
  ∧ (∀ event data, sendToUser U event data w3 = (Returned false, w3))
  ∧ (∀ event data, truthy_str event = true →
       express (NotifyUser (Some U) (Some event) data) "" w3
       = (delivered_response false, w3))
  ∧ sockets w3 !! id B = Some B
  ∧ id B ∈ members w3 (id B).
Proof.
  intros HaccA w1 HaccB HU U w2 w3.
  destruct (transport_connect_fields A w) as (Huc1 & _ & Hsu1 & Hso1 & _ & _).
  destruct (transport_connect_fields B w1) as (Huc2 & _ & Hsu2 & Hso2 & _ & Hmem2).
  change (transport_connect A w).2 with w1 in Huc1, Hsu1, Hso1.
  change (transport_connect B w1).2 with w2 in *.
  assert (Hw3 : sockets w2 !! id A = Some A → w3 = (transport_disconnect A reason w2).2).
  { unfold w3, exec. by intros ->. }
  clearbody w3 w2 w1.
  assert (Hne : id A ≠ id B).
  { simpl in HaccB. apply andb_true_iff in HaccB as [_ HB].
    apply bool_decide_eq_true in HB. rewrite Hso1 in HB.
    intros E. rewrite <- E, lookup_insert_eq in HB. done. }
  assert (HsA : sockets w2 !! id A = Some A).
  { rewrite Hso2, lookup_insert_ne, Hso1, lookup_insert_eq by done. done. }
  assert (HuA : socketUsers w2 !! id A = Some U).
  { rewrite Hsu2, lookup_insert_ne, Hsu1, lookup_insert_eq by done. done. }
  specialize (Hw3 HsA).
  rewrite transport_disconnect_world, HuA in Hw3. simpl in Hw3.
  assert (Hres3 : resolve w3 U = None).
  { rewrite Hw3. unfold resolve; simpl. apply lookup_delete_eq. }
  split; [|split; [|split; [|split; [|split; [|split]]]]].
  - unfold resolve. rewrite Huc2, HU. apply lookup_insert_eq.
  - simpl. apply bool_decide_eq_true. by exists A.
  - done.
  - intros. by apply sendToUser_unresolved.
  - intros event data He.
    apply express_notify_user_unresolved; [apply userId_of_truthy | done | done].
  - rewrite Hw3. simpl. rewrite lookup_delete_ne, Hso2 by done. apply lookup_insert_eq.
  - rewrite Hw3. apply elem_of_members_leave_all. split; [done|]. congruence.
Qed.

Lemma stale_disconnect_unregisters_live_user_witness :
  accepts initial (Connect Scenario.socketA) = true
  ∧ accepts Scenario.w_A (Connect Scenario.socketB) = true
  ∧ userId_of Scenario.socketB = userId_of Scenario.socketA
  ∧ resolve (exec (Disconnect "sockA" "transport close") Scenario.w_AB) "u1" = None
  ∧ sockets (exec (Disconnect "sockA" "transport close") Scenario.w_AB) !! "sockB"
    = Some Scenario.socketB.
Proof.
  assert (H1 : accepts initial (Connect Scenario.socketA) = true) by reflexivity.
  assert (H2 : accepts (exec (Connect Scenario.socketA) initial) (Connect Scenario.socketB) = true)
    by (vm_compute; reflexivity).
  assert (H3 : userId_of Scenario.socketB = userId_of Scenario.socketA) by reflexivity.
  destruct (stale_disconnect_unregisters_live_user initial Scenario.socketA Scenario.socketB
              "transport close" H1 H2 H3) as (_ & _ & R1 & _ & _ & R2 & _).
  exact (conj H1 (conj H2 (conj H3 (conj R1 R2)))).
Defined.

(** ** The two indices *)

(** C3, as the code has it: in every reachable world a forward entry
    U -> C has its reverse entry C -> U, the reverse index holds exactly
    the connected sockets (each under the user id it registered), and a
    role is stored exactly for the users with a forward entry.  A reverse
    entry need not have a forward entry. *)
Theorem forward_entries_have_reverse_entries (w : World) :
  reachable w →
  (∀ U C, userConnections w !! U = Some C → socketUsers w !! C = Some U)
  ∧ (∀ C U, socketUsers w !! C = Some U
            ↔ ∃ socket, sockets w !! C = Some socket ∧ U = userId_of socket)
  ∧ (∀ U, is_Some (userRoles w !! U) ↔ is_Some (userConnections w !! U)).
Proof.
  intros Hw. apply reachable_wf in Hw.
  split; [apply (wf_forward w Hw) | split; [apply (wf_reverse w Hw) | apply (wf_roles w Hw)]].
Qed.

Lemma forward_entries_have_reverse_entries_witness :
  reachable Scenario.w_AB
  ∧ (∀ U C, userConnections Scenario.w_AB !! U = Some C
            → socketUsers Scenario.w_AB !! C = Some U).
Proof.
  split; [apply reachable_w_AB|].
  apply (forward_entries_have_reverse_entries Scenario.w_AB reachable_w_AB).
Defined.

(** C3 as stated fails: after u1 connected on sockA and then on sockB, the
    reverse index maps sockA to u1 but the forward index maps u1 to sockB. *)
Lemma indices_correspond_exactly_fails :
  ¬ (∀ w, reachable w →
       ∀ U C, socketUsers w !! C = Some U ↔ userConnections w !! U = Some C).
Proof.
  intros H. destruct (H Scenario.w_AB reachable_w_AB "u1" "sockA") as [H1 _].
  assert (E : socketUsers Scenario.w_AB !! "sockA" = Some "u1") by (vm_compute; reflexivity).
  apply H1 in E. vm_compute in E. discriminate.
Qed.

(** ** Call signalling *)

Lemma strict_eq_true (f : option string) (s : string) :
  strict_eq f s = true ↔ f = Some s.
Proof.
  unfold strict_eq. destruct f as [t|]; [|split; discriminate].
  rewrite String.eqb_eq. split; congruence.
Qed.






(** C6: an answer or an ICE candidate whose target is the sender itself, or
    whose target does not resolve, changes nothing: no delivery, no error
    event, and the listener returns normally. *)
Theorem relay_answer_and_ice_are_silent (w : World) (socket : Socket) (now : string)
    (callId : value) (target : option string) (payload : value) :
  target = Some (userId_of socket) ∨ map_get (userConnections w) target = None →
  on_call_answer socket now (Some (mkAnswerData callId target payload)) w = (Returned tt, w)
  ∧ on_call_ice_candidate socket now (Some (mkIceData callId target payload)) w
    = (Returned tt, w).
Proof.
  intros H.
  unfold on_call_answer, on_call_ice_candidate, destructure, bind, ret, gets; simpl.
  destruct (strict_eq target (userId_of socket)) eqn:E; [done|].
  destruct H as [H|H].
  - apply strict_eq_true in H. congruence.
  - by rewrite H.
Qed.


Lemma relay_answer_and_ice_are_silent_witness :
  (Some "u1" = Some (userId_of Scenario.socketA)
   ∨ map_get (userConnections Scenario.w_A) (Some "u1") = None)
  ∧ on_call_answer Scenario.socketA "t0"
      (Some (mkAnswerData (VStr "c1") (Some "u1") VNull)) Scenario.w_A
    = (Returned tt, Scenario.w_A).
Proof.
  assert (H : Some "u1" = Some (userId_of Scenario.socketA)
              ∨ map_get (userConnections Scenario.w_A) (Some "u1") = None)
    by (left; reflexivity).
  destruct (relay_answer_and_ice_are_silent Scenario.w_A Scenario.socketA "t0" (VStr "c1")
              (Some "u1") VNull H) as [R _].
  exact (conj H R).
Defined.

(** ** Sending to a role *)





(** ** Sending to several users *)

Lemma live_resolved (w : World) (u : string) :
  wf w → live w u ↔ resolved w u = true.
Proof.
  intros Hwf. unfold resolved, live. rewrite bool_decide_eq_true. split.
  - intros (c & Hc & _). by exists c.
  - intros [c Hc]. exists c. split; [done|].
    destruct (wf_resolve_connected w u c Hwf Hc) as (s & Hs & _). by exists s.
Qed.

Lemma fan_out_step_eq (w : World) (event : string) (data : value) (u : string)
    (results : gmap string bool) (n : nat) (ds : list Delivery) :
  wf w →
  fan_out_step event data u (results, n) (push ds w)
  = (Returned (obj_set u (resolved w u) results, (if resolved w u then S n else n)),
     push (ds ++ option_list (notified w event data u)) w).
Proof.
  intros Hwf. unfold fan_out_step, bind, gets, resolved, notified, resolve; simpl.
  destruct (userConnections w !! u) as [c|] eqn:Hc; simpl.
  - destruct (wf_resolve_connected w u c Hwf Hc) as (s & Hs & _ & Ht).
    rewrite Ht. change (members (push ds w) c) with (members w c).
    rewrite (wf_own_room_singleton w c Hwf) by (by eexists).
    rewrite elements_singleton. unfold ret. simpl. by rewrite push_push.
  - unfold ret. by rewrite app_nil_r.
Qed.

Lemma forEach_fan_out (w : World) (event : string) (data : value) (userIds : list string)
    (results : gmap string bool) (n : nat) (ds : list Delivery) :
  wf w →
  forEach userIds (fan_out_step event data) (results, n) (push ds w)
  = (Returned (record_all w userIds results, n + List.length (filter (λ u, resolved w u = true) userIds)),
     push (ds ++ omap (notified w event data) userIds) w).
Proof.
  intros Hwf. revert results n ds.
  induction userIds as [|u us IH]; intros results n ds; simpl.
  - unfold ret. by rewrite Nat.add_0_r, app_nil_r.
  - unfold bind at 1. rewrite fan_out_step_eq by done. rewrite IH.
    rewrite filter_cons, <- app_assoc.
    assert (Hn : option_list (notified w event data u) ++ omap (notified w event data) us
                 = omap (notified w event data) (u :: us)).
    { simpl. by destruct (notified w event data u). }
    rewrite Hn.
    destruct (resolved w u) eqn:E.
    + rewrite decide_True by done. simpl List.length.
      do 3 f_equal. lia.
    + by rewrite decide_False by congruence.
Qed.




Lemma filter_live_resolved (w : World) (userIds : list string) :
  wf w → filter (live w) userIds = filter (λ u, resolved w u = true) userIds.
Proof.
  intros Hwf. apply list_filter_iff. intros u. by apply live_resolved.
Qed.





(** ** Validation at the REST boundary *)

(** C9: a request in which a field its route names as required is absent
    gets the route's 400 response with [success: false] and leaves the
    world as it was: no map or room changes and nothing is delivered.  The
    response does not depend on the world. *)
Theorem missing_required_field_is_rejected (req : request) (now : string) (w : World) :
  required_field_absent req = true →
  route req now w = (Returned (bad_request (validation_error req)), w)
  ∧ express req now w = (bad_request (validation_error req), w).
Proof.
  intros H.
  assert (E : route req now w = (Returned (bad_request (validation_error req)), w)).
  { destruct req; simpl in *;
      unfold post_notify_chat_message, post_notify_chat_read, post_notify_call_incoming,
        post_notify_call_answered, post_notify_call_rejected, notify_caller,
        post_notify_call_ended, post_notify_user, post_notify_users, post_notify_role,
        post_notify_all;
      repeat match goal with
        | f : option string |- _ => destruct f
        | x : ids |- _ => destruct x
        | v : value |- _ => destruct v
        end; simpl in *; try discriminate; repeat case_match; reflexivity. }
  split; [exact E|]. unfold express. by rewrite E.
Qed.


Lemma missing_required_field_is_rejected_witness :
  required_field_absent (NotifyUsers IdsUndefined (Some "X") VNull) = true
  ∧ express (NotifyUsers IdsUndefined (Some "X") VNull) "t0" Scenario.w_AB
    = (bad_request "userIds (array) and event are required", Scenario.w_AB).
Proof.
  assert (H : required_field_absent (NotifyUsers IdsUndefined (Some "X") VNull) = true)
    by reflexivity.
  destruct (missing_required_field_is_rejected
              (NotifyUsers IdsUndefined (Some "X") VNull) "t0" Scenario.w_AB H) as [_ R].
  exact (conj H R).
Defined.

(** ** Sending to one user *)

Lemma not_live_unresolved (w : World) (u : string) :
  wf w → ¬ live w u → resolve w u = None.
Proof.
  intros Hwf Hn. destruct (resolve w u) as [c|] eqn:Hc; [|done].
  destruct Hn. exists c. split; [done|].
  destruct (wf_resolve_connected w u c Hwf Hc) as (s & Hs & _). by exists s.
Qed.

(** C10: for a user id that is not mapped to a live connection,
    [sendToUser] returns false normally, without delivering anything, and
    POST /notify/user answers [delivered: false]. *)
Theorem send_to_unmapped_user (w : World) (userId event : string) (data : value) :
  reachable w → ¬ live w userId →
  sendToUser userId event data w = (Returned false, w)
  ∧ (∀ now, truthy_str userId = true → truthy_str event = true →
       express (NotifyUser (Some userId) (Some event) data) now w
       = (delivered_response false, w)).
Proof.
  intros Hw Hn. apply reachable_wf in Hw.
  pose proof (not_live_unresolved w userId Hw Hn) as Hres.
  split; [by apply sendToUser_unresolved|].
  intros now Hu He. by apply express_notify_user_unresolved.
Qed.


Lemma send_to_unmapped_user_witness :
  reachable Scenario.w_A
  ∧ ¬ live Scenario.w_A "u2"
  ∧ sendToUser "u2" "X" (VObj []) Scenario.w_A = (Returned false, Scenario.w_A).
Proof.
  assert (H : ¬ live Scenario.w_A "u2").
  { intros (c & Hc & _). vm_compute in Hc. discriminate. }
  destruct (send_to_unmapped_user Scenario.w_A "u2" "X" (VObj []) reachable_w_A H) as [R _].
  exact (conj reachable_w_A (conj H R)).
Defined.

(** ** Disconnecting *)

(** C8: when a connected socket closes, whatever the reason, the
    transport and the "disconnect" listener return normally and afterwards
    the socket id is gone from the forward index (no user maps to it, and
    its user id has no entry), from the reverse index, from the role map
    (its user id has no role), from every room and from the connected
    sockets; sending to its user id reports [delivered: false]. *)
Theorem disconnect_cleans_up (w : World) (sid : string) (socket : Socket) (reason : string) :
  reachable w → sockets w !! sid = Some socket →
  let U := userId_of socket in
  let w' := exec (Disconnect sid reason) w in
  transport_disconnect socket reason w = (Returned tt, w')
  ∧ (∀ w0 reason0, (on_disconnect socket reason0 w0).1 = Returned tt)
  ∧ (∀ reason', exec (Disconnect sid reason') w = w')
  ∧ resolve w' U = None
  ∧ (∀ u, userConnections w' !! u ≠ Some sid)
  ∧ socketUsers w' !! sid = None
  ∧ userRoles w' !! U = None
  ∧ (∀ room, sid ∉ members w' room)
  ∧ sockets w' !! sid = None
  ∧ (∀ event data, sendToUser U event data w' = (Returned false, w'))
  ∧ (∀ event data now, truthy_str event = true →
       express (NotifyUser (Some U) (Some event) data) now w'
       = (delivered_response false, w')).
Proof.
  intros Hw Hs U w'. apply reachable_wf in Hw.
  destruct (wf_socket_id w Hw sid socket Hs) as (Hid & _ & _).
  assert (Hs' : sockets w !! id socket = Some socket) by (by rewrite Hid).
  assert (Hexec : ∀ r, exec (Disconnect sid r) w = (transport_disconnect socket r w).2).
  { intros r. unfold exec. by rewrite Hs. }
  assert (Hw' : w' = mkWorld (delete U (userConnections w)) (delete U (userRoles w))
                       (delete sid (socketUsers w)) (delete sid (sockets w))
                       ((λ ms : gset string, ms ∖ {[sid]}) <$> rooms w) (outbox w)).
  { unfold w'. rewrite Hexec, transport_disconnect_eq by done. simpl. by rewrite Hid. }
  clearbody w'.
  assert (Hres : resolve w' U = None).
  { rewrite Hw'. unfold resolve; simpl. apply lookup_delete_eq. }
  split; [|split; [|split; [|split; [|split; [|split; [|split; [|split; [|split; [|split]]]]]]]]].
  - rewrite transport_disconnect_eq by done. by rewrite Hw', Hid.
  - intros w0 reason0. reflexivity.
  - intros reason'. rewrite Hexec, transport_disconnect_eq by done. simpl.
    by rewrite Hw', Hid.
  - done.
  - intros u Hu. rewrite Hw' in Hu. simpl in Hu.
    apply lookup_delete_Some in Hu as [Hne Hu].
    apply (wf_forward w Hw) in Hu.
    assert (Hrev : socketUsers w !! sid = Some U).
    { apply (wf_reverse w Hw). by exists socket. }
    congruence.
  - rewrite Hw'. simpl. apply lookup_delete_eq.
  - rewrite Hw'. simpl. apply lookup_delete_eq.
  - intros room Hm. rewrite Hw' in Hm.
    change (sid ∈ members (set_rooms (fmap (λ ms : gset string, ms ∖ {[sid]})) w) room) in Hm.
    apply elem_of_members_leave_all in Hm as [_ ?]. done.
  - rewrite Hw'. simpl. apply lookup_delete_eq.
  - intros. by apply sendToUser_unresolved.
  - intros event data now He.
    apply express_notify_user_unresolved; [apply userId_of_truthy|done|done].
Qed.

Lemma disconnect_cleans_up_witness :
  reachable Scenario.w_A
  ∧ sockets Scenario.w_A !! "sockA" = Some Scenario.socketA
  ∧ resolve (exec (Disconnect "sockA" "ping timeout") Scenario.w_A) "u1" = None
  ∧ socketUsers (exec (Disconnect "sockA" "ping timeout") Scenario.w_A) !! "sockA" = None.
Proof.
  assert (H : sockets Scenario.w_A !! "sockA" = Some Scenario.socketA)
    by (vm_compute; reflexivity).
  destruct (disconnect_cleans_up Scenario.w_A "sockA" Scenario.socketA "ping timeout"
              reachable_w_A H) as (_ & _ & _ & R1 & _ & R2 & _).
  exact (conj reachable_w_A (conj H (conj R1 R2))).
Defined.

(** * Further properties of the handlers *)










Lemma filter_length_ge_1 {A} (P : A → Prop) `{!∀ x, Decision (P x)} (l : list A) (x : A) :
  x ∈ l → P x → (1 ≤ List.length (filter P l))%nat.
Proof.
  intros Hx HP. assert (Hin : x ∈ filter P l) by (by apply list_elem_of_filter).
  destruct (filter P l); [by apply elem_of_nil in Hin | simpl; lia].
Qed.

Lemma length_notified (w : World) (e : string) (a : value) (l : list string) :
  List.length (omap (notified w e a) l)
  = List.length (filter (λ u, resolved w u = true) l).
Proof.
  induction l as [|u us IH]; [done|].
  assert (Hn : omap (notified w e a) (u :: us)
               = option_list (notified w e a u) ++ omap (notified w e a) us).
  { simpl. by destruct (notified w e a u). }
  rewrite Hn, filter_cons, length_app, IH. clear Hn.
  destruct (resolved w u) eqn:E.
  - rewrite decide_True by done. apply bool_decide_eq_true in E as [c Hc].
    unfold notified. by rewrite Hc.
  - rewrite decide_False by congruence. apply bool_decide_eq_false in E.
    unfold notified. destruct (resolve w u) as [c|]; [|done].
    destruct E. by eexists.
Qed.

Lemma express_notify_chat_message (w : World) (chatRoomId : string)
    (recipientIds : list string) (messageData : value) (now : string) :
  wf w → truthy_str chatRoomId = true → truthy messageData = true →
  express (NotifyChatMessage (Some chatRoomId) (IdsArray recipientIds) messageData) now w
  = (json [("success", VBool true);
           ("deliveredCount", num (List.length (filter (live w) recipientIds)));
           ("totalRecipients", num (List.length recipientIds));
           ("results", results_value (record_all w recipientIds ∅))],
     push (omap (notified w "chat:message" messageData) recipientIds
           ++ deliver_to (elements (members w ("chat-" +:+ chatRoomId)))
                "chat:message" messageData) w).
Proof.
  intros Hw Hc Hm.
  unfold express, route, post_notify_chat_message.
  rewrite required_truthy by done. rewrite Hm. cbn [truthy_ids].
  unfold bind at 1. cbn [js_forEach].
  rewrite <- (push_nil w) at 1. rewrite forEach_fan_out by done.
  rewrite <- filter_live_resolved by done.
  unfold bind, io_to_emit, modify, ret. cbn [app]. rewrite push_push. done.
Qed.

(** X4: /notify/chat/message first delivers to each listed recipient
    that resolves and then to every member of the chat room, and counts
    only the first part in deliveredCount; a recipient whose socket is
    also in the room is sent the message at least twice. *)
Theorem chat_message_fan_out (w : World) (chatRoomId : string) (recipientIds : list string)
    (messageData : value) (now : string) :
  reachable w → truthy_str chatRoomId = true → truthy messageData = true →
  let direct := omap (notified w "chat:message" messageData) recipientIds in
  let room := deliver_to (elements (members w ("chat-" +:+ chatRoomId)))
                "chat:message" messageData in
  express (NotifyChatMessage (Some chatRoomId) (IdsArray recipientIds) messageData) now w
  = (json [("success", VBool true);
           ("deliveredCount", num (List.length (filter (live w) recipientIds)));
           ("totalRecipients", num (List.length recipientIds));
           ("results", results_value (record_all w recipientIds ∅))],
     push (direct ++ room) w)
  ∧ List.length direct = List.length (filter (live w) recipientIds)
  ∧ (∀ u c, u ∈ recipientIds → resolve w u = Some c →
       c ∈ members w ("chat-" +:+ chatRoomId) →
       (2 ≤ List.length (filter (λ d, dest d = c) (direct ++ room)))%nat).
Proof.
  intros Hw Hc Hm direct room. apply reachable_wf in Hw.
  split; [|split].
  - by apply express_notify_chat_message.
  - unfold direct. by rewrite length_notified, filter_live_resolved.
  - intros u c Hu Hres Hmem. rewrite filter_app, length_app.
    assert (H1 : (1 ≤ List.length (filter (λ d, dest d = c) direct))%nat).
    { apply (filter_length_ge_1 _ _ (mkDelivery c "chat:message" messageData)); [|done].
      unfold direct. apply list_elem_of_omap. exists u. split; [done|].
      unfold notified. by rewrite Hres. }
    assert (H2 : (1 ≤ List.length (filter (λ d, dest d = c) room))%nat).
    { apply (filter_length_ge_1 _ _ (mkDelivery c "chat:message" messageData)); [|done].
      unfold room, deliver_to. apply list_elem_of_fmap. exists c. split; [done|].
      by apply elem_of_elements. }
    lia.
Qed.

Lemma chat_message_fan_out_witness :
  reachable Scenario.w_AC ∧ truthy_str "r1" = true ∧ truthy (VStr "hi") = true
  ∧ express (NotifyChatMessage (Some "r1") (IdsArray ["u2"; "u3"]) (VStr "hi")) "t0"
      Scenario.w_AC
    = (json [("success", VBool true); ("deliveredCount", VNum 1);
             ("totalRecipients", VNum 2);
             ("results", results_value (record_all Scenario.w_AC ["u2"; "u3"] ∅))],
       push [mkDelivery "sockC" "chat:message" (VStr "hi")] Scenario.w_AC).
Proof.
  destruct (chat_message_fan_out Scenario.w_AC "r1" ["u2"; "u3"] (VStr "hi") "t0"
              reachable_w_AC eq_refl eq_refl) as [R _].
  split; [apply reachable_w_AC|]. split; [reflexivity|]. split; [reflexivity|].
  rewrite R. vm_compute. reflexivity.
Defined.











Lemma elem_of_members_connect (socket : Socket) (w : World) (room c : string) :
  c ∈ members (transport_connect socket w).2 room
  ↔ (c = id socket
     ∧ (room = id socket ∨ room = "role-" +:+ role_of socket
        ∨ room = "user-" +:+ userId_of socket))
    ∨ c ∈ members w room.
Proof.
  change (transport_connect socket w).2 with
    (socket_join (id socket) ("user-" +:+ userId_of socket)
       (socket_join (id socket) ("role-" +:+ role_of socket)
          (set_userRoles (insert (userId_of socket) (role_of socket))
            (set_socketUsers (insert (id socket) (userId_of socket))
              (set_userConnections (insert (userId_of socket) (id socket))
                (socket_join (id socket) (id socket)
                   (set_sockets (insert (id socket) socket) w)).2)))).2).2.
  rewrite !elem_of_members_join.
  change (members (set_userRoles _ (set_socketUsers _ (set_userConnections _ ?x))) room)
    with (members x room).
  rewrite elem_of_members_join.
  change (members (set_sockets _ w) room) with (members w room).
  tauto.
Qed.

Lemma wf_rooms_push (ds : list Delivery) (w : World) : wf_rooms w → wf_rooms (push ds w).
Proof. intros [H1 H2 H3]. by constructor. Qed.

Lemma wf_rooms_initial : wf_rooms initial.
Proof.
  constructor; unfold members; simpl; intros.
  - rewrite lookup_empty. simpl. rewrite elem_of_empty. split; [done|].
    intros (s & Hs & _). by rewrite lookup_empty in Hs.
  - rewrite lookup_empty. simpl. rewrite elem_of_empty. split; [done|].
    intros (s & Hs & _). by rewrite lookup_empty in Hs.
  - by rewrite lookup_empty in *.
Qed.

Lemma not_app_room_neq (sid room : string) :
  app_room sid = false → app_room room = true → room ≠ sid.
Proof. intros H1 H2 ->. congruence. Qed.

Lemma wf_rooms_connect (socket : Socket) (w : World) :
  wf w → wf_rooms w → accepts w (Connect socket) = true →
  wf_rooms (transport_connect socket w).2.
Proof.
  intros Hwf Hr Hacc. simpl in Hacc.
  apply andb_true_iff in Hacc as [Hacc Hfresh].
  apply andb_true_iff in Hacc as [Hne Happ].
  apply negb_true_iff in Happ. apply bool_decide_eq_true in Hfresh.
  destruct (transport_connect_fields socket w) as (Huc & Hur & Hsu & Hso & _ & _).
  constructor.
  - intros r c. rewrite elem_of_members_connect, Hso, (wfr_role w Hr). split.
    + intros [[-> H]|(s & Hs & Hrole)].
      * exists socket. rewrite lookup_insert_eq. split; [done|].
        destruct H as [H|[H|H]].
        -- exfalso. eapply not_app_room_neq; [exact Happ|apply (app_room_role r)|done].
        -- simpl in H. by injection H.
        -- simpl in H. discriminate.
      * exists s. rewrite lookup_insert_ne; [done|]. intros <-. congruence.
    + intros (s & Hs & Hrole). rewrite lookup_insert in Hs. case_decide as E.
      * injection Hs as <-. left. split; [done|]. right. left. by rewrite Hrole.
      * right. by exists s.
  - intros u c. rewrite elem_of_members_connect, Hso, (wfr_user w Hr). split.
    + intros [[-> H]|(s & Hs & Hu)].
      * exists socket. rewrite lookup_insert_eq. split; [done|].
        destruct H as [H|[H|H]].
        -- exfalso. eapply not_app_room_neq; [exact Happ|apply (app_room_user u)|done].
        -- simpl in H. discriminate.
        -- simpl in H. by injection H.
      * exists s. rewrite lookup_insert_ne; [done|]. intros <-. congruence.
    + intros (s & Hs & Hu). rewrite lookup_insert in Hs. case_decide as E.
      * injection Hs as <-. left. split; [done|]. right. right. by rewrite Hu.
      * right. by exists s.
  - intros u c s. rewrite Huc, Hso, Hur. rewrite !lookup_insert.
    destruct (decide (userId_of socket = u)) as [<-|Hu].
    + intros [= <-]. rewrite decide_True by done. by intros [= <-].
    + intros Hc. destruct (wf_resolve_connected w u c Hwf Hc) as (s' & Hs' & _).
      rewrite decide_False by (intros <-; congruence).
      intros Hs. by apply (wfr_stored w Hr u c).
Qed.

Lemma wf_rooms_disconnect (socket : Socket) (reason : string) (w : World) :
  wf w → wf_rooms w → sockets w !! id socket = Some socket →
  wf_rooms (transport_disconnect socket reason w).2.
Proof.
  intros Hwf Hr Hs. rewrite transport_disconnect_eq by done.
  assert (Hrev : socketUsers w !! id socket = Some (userId_of socket)).
  { apply (wf_reverse w Hwf). by exists socket. }
  constructor; cbn [snd].
  - intros r c.
    change (members _ ?room) with
      (members (set_rooms (fmap (λ ms : gset string, ms ∖ {[id socket]})) w) room).
    rewrite elem_of_members_leave_all, (wfr_role w Hr). cbn [sockets]. split.
    + intros [(s & Hc & Hrole) Hne]. exists s. by rewrite lookup_delete_ne.
    + intros (s & Hc & Hrole). apply lookup_delete_Some in Hc as [Hne Hc].
      split; [by exists s|done].
  - intros u c.
    change (members _ ?room) with
      (members (set_rooms (fmap (λ ms : gset string, ms ∖ {[id socket]})) w) room).
    rewrite elem_of_members_leave_all, (wfr_user w Hr). cbn [sockets]. split.
    + intros [(s & Hc & Hu) Hne]. exists s. by rewrite lookup_delete_ne.
    + intros (s & Hc & Hu). apply lookup_delete_Some in Hc as [Hne Hc].
      split; [by exists s|done].
  - intros u c s. cbn [userConnections sockets userRoles].
    intros Hu Hc. apply lookup_delete_Some in Hu as [Hne Hu].
    apply lookup_delete_Some in Hc as [_ Hc].
    rewrite lookup_delete_ne by done. by apply (wfr_stored w Hr u c).
Qed.

Lemma wf_rooms_chat_join (w : World) (sid x : string) :
  wf_rooms w → wf_rooms (socket_join sid ("chat-" +:+ x) w).2.
Proof.
  intros Hr. constructor.
  - intros r c. rewrite elem_of_members_join, <- (wfr_role w Hr). split; [|by right].
    intros [[H _]|H]; [simpl in H; discriminate | done].
  - intros u c. rewrite elem_of_members_join, <- (wfr_user w Hr). split; [|by right].
    intros [[H _]|H]; [simpl in H; discriminate | done].
  - apply (wfr_stored w Hr).
Qed.

Lemma wf_rooms_chat_leave (w : World) (sid x : string) :
  wf_rooms w → wf_rooms (socket_leave sid ("chat-" +:+ x) w).2.
Proof.
  intros Hr. constructor.
  - intros r c. rewrite elem_of_members_leave, <- (wfr_role w Hr). split; [by intros [? _]|].
    intros H. split; [done|]. intros [H' _]. simpl in H'. discriminate.
  - intros u c. rewrite elem_of_members_leave, <- (wfr_user w Hr). split; [by intros [? _]|].
    intros H. split; [done|]. intros [H' _]. simpl in H'. discriminate.
  - apply (wfr_stored w Hr).
Qed.

Lemma wf_rooms_exec (w : World) (i : input) :
  wf w → wf_rooms w → accepts w i = true → wf_rooms (exec i w).
Proof.
  intros Hwf Hr Hacc. destruct i as [socket|sid msg now|sid reason|req now]; simpl.
  - by apply wf_rooms_connect.
  - destruct (sockets w !! sid) as [socket|] eqn:Hs; [|done].
    destruct msg as [[d|]|[d|]|d|d|d|d|d|]; try exact Hr;
      try (match goal with
           | |- wf_rooms (listener ?s ?n ?m w).2 =>
               destruct (emits_only_listener s n m I w) as [ds Hds];
               rewrite Hds; by apply wf_rooms_push
           end).
    + apply wf_rooms_push. apply (wf_rooms_chat_join w (id socket) _ Hr).
    + apply wf_rooms_push. apply (wf_rooms_chat_leave w (id socket) _ Hr).
  - destruct (sockets w !! sid) as [socket|] eqn:Hs; [|done].
    destruct (wf_socket_id w Hwf _ _ Hs) as (<- & _ & _).
    by apply (wf_rooms_disconnect socket reason).
  - destruct (express_emits_only req now w) as [ds ->]. by apply wf_rooms_push.
Qed.

Lemma reachable_wf_rooms (w : World) : reachable w → wf_rooms w.
Proof.
  induction 1 as [|w i Hw IH Hacc]; [apply wf_rooms_initial|].
  apply wf_rooms_exec; [by apply reachable_wf|done|done].
Qed.

Lemma deliver_to_elements (X : gset string) (e : string) (a : value) :
  NoDup (deliver_to (elements X) e a)
  ∧ ∀ d, d ∈ deliver_to (elements X) e a ↔ ∃ c, d = mkDelivery c e a ∧ c ∈ X.
Proof.
  split.
  - unfold deliver_to. apply NoDup_fmap_2; [|apply NoDup_elements].
    intros c1 c2 [=]. done.
  - intros d. unfold deliver_to. rewrite list_elem_of_fmap.
    split; intros (c & Hd & Hc); exists c; split; try done; by apply elem_of_elements.
Qed.

(** X7: in every reachable world the room role-<r> holds exactly the
    connected sockets whose handshake role is r, the room user-<u> holds
    exactly the connected sockets whose user id is u (there can be several),
    the room named by a connected socket's id holds that socket alone, and
    every member of every room is a connected socket. *)
Theorem rooms_follow_connected_sockets (w : World) :
  reachable w →
  (∀ r c, c ∈ members w ("role-" +:+ r)
          ↔ ∃ s, sockets w !! c = Some s ∧ role_of s = r)
  ∧ (∀ u c, c ∈ members w ("user-" +:+ u)
            ↔ ∃ s, sockets w !! c = Some s ∧ userId_of s = u)
  ∧ (∀ c, is_Some (sockets w !! c) → members w c = {[c]})
  ∧ (∀ room c, c ∈ members w room → is_Some (sockets w !! c)).
Proof.
  intros Hw. pose proof (reachable_wf w Hw) as Hwf.
  pose proof (reachable_wf_rooms w Hw) as Hr.
  split; [apply (wfr_role w Hr)|]. split; [apply (wfr_user w Hr)|].
  split; [intros c; by apply wf_own_room_singleton|apply (wf_members w Hwf)].
Qed.

Lemma rooms_follow_connected_sockets_witness :
  reachable Scenario.w_AB
  ∧ (∀ c, c ∈ members Scenario.w_AB "user-u1"
          ↔ ∃ s, sockets Scenario.w_AB !! c = Some s ∧ userId_of s = "u1").
Proof.
  destruct (rooms_follow_connected_sockets Scenario.w_AB reachable_w_AB) as (_ & R & _).
  exact (conj reachable_w_AB (R "u1")).
Defined.



(** X9: when a user id resolves to a connected socket, the role stored
    for the user is the role of that socket, and that socket registered
    under that user id. *)
Theorem stored_role_is_role_of_current_connection (w : World) (u c : string) (s : Socket) :
  reachable w → resolve w u = Some c → sockets w !! c = Some s →
  userRoles w !! u = Some (role_of s) ∧ userId_of s = u.
Proof.
  intros Hw Hc Hs. pose proof (reachable_wf w Hw) as Hwf.
  split; [by apply (wfr_stored w (reachable_wf_rooms w Hw) u c)|].
  destruct (wf_resolve_connected w u c Hwf Hc) as (s' & Hs' & Hu & _). congruence.
Qed.

Lemma stored_role_is_role_of_current_connection_witness :
  reachable Scenario.w_AB ∧ resolve Scenario.w_AB "u1" = Some "sockB"
  ∧ sockets Scenario.w_AB !! "sockB" = Some Scenario.socketB
  ∧ userRoles Scenario.w_AB !! "u1" = Some (role_of Scenario.socketB).
Proof.
  assert (H1 : resolve Scenario.w_AB "u1" = Some "sockB") by (vm_compute; reflexivity).
  assert (H2 : sockets Scenario.w_AB !! "sockB" = Some Scenario.socketB)
    by (vm_compute; reflexivity).
  destruct (stored_role_is_role_of_current_connection Scenario.w_AB "u1" "sockB"
              Scenario.socketB reachable_w_AB H1 H2) as [R _].
  exact (conj reachable_w_AB (conj H1 (conj H2 R))).
Defined.




Lemma sent_app (w w' : World) (ds : list Delivery) :
  outbox w' = outbox w ++ ds → sent w w' = ds.
Proof. intros E. unfold sent. rewrite E. apply drop_app_length. Qed.

(** X10: a socket that connects and then disconnects leaves the reverse
    index, the connected sockets, every room and the deliveries as they
    were, and its user id unregistered.  When the user id was not
    registered before, the forward index and the role map are as they were
    too; when it was, the earlier registration is gone although its socket
    is still connected. *)
Theorem connect_then_disconnect (w : World) (socket : Socket) (reason : string) :
  reachable w → accepts w (Connect socket) = true →
  let U := userId_of socket in
  let w1 := exec (Connect socket) w in
  let w2 := exec (Disconnect (id socket) reason) w1 in
  accepts w1 (Disconnect (id socket) reason) = true
  ∧ socketUsers w2 = socketUsers w
  ∧ sockets w2 = sockets w
  ∧ (∀ room, members w2 room = members w room)
  ∧ outbox w2 = outbox w
  ∧ resolve w2 U = None
  ∧ userRoles w2 !! U = None
  ∧ (resolve w U = None → userConnections w2 = userConnections w ∧ userRoles w2 = userRoles w)
  ∧ (∀ c, resolve w U = Some c → is_Some (sockets w2 !! c)).
Proof.
  intros Hw Hacc U w1 w2. pose proof (reachable_wf w Hw) as Hwf.
  pose proof Hacc as Hacc'. simpl in Hacc'.
  apply andb_true_iff in Hacc' as [Hacc' Hfresh].
  apply bool_decide_eq_true in Hfresh.
  destruct (transport_connect_fields socket w) as (Huc & Hur & Hsu & Hso & Hout & _).
  change (transport_connect socket w).2 with w1 in Huc, Hur, Hsu, Hso, Hout.
  assert (Hs1 : sockets w1 !! id socket = Some socket) by (by rewrite Hso, lookup_insert_eq).
  assert (Hu1 : socketUsers w1 !! id socket = Some U) by (by rewrite Hsu, lookup_insert_eq).
  assert (Hmem1 : ∀ room c, c ∈ members w1 room
                    ↔ (c = id socket
                       ∧ (room = id socket ∨ room = "role-" +:+ role_of socket
                          ∨ room = "user-" +:+ userId_of socket))
                      ∨ c ∈ members w room).
  { intros room c. apply elem_of_members_connect. }
  assert (Hw2 : w2 = (transport_disconnect socket reason w1).2).
  { unfold w2, exec. by rewrite Hs1. }
  clearbody w1. rewrite transport_disconnect_world, Hu1 in Hw2. cbn [snd map_delete] in Hw2.
  clearbody w2. subst w2. cbn [userConnections userRoles socketUsers sockets outbox].
  assert (Hsu0 : socketUsers w !! id socket = None).
  { destruct (socketUsers w !! id socket) as [u0|] eqn:E; [|done].
    apply (wf_reverse w Hwf) in E as (s0 & Hs0 & _). congruence. }
  split; [|split; [|split; [|split; [|split; [|split; [|split; [|split]]]]]]].
  - simpl. apply bool_decide_eq_true. by exists socket.
  - rewrite Hsu, delete_insert_eq. by apply delete_id.
  - rewrite Hso, delete_insert_eq. by apply delete_id.
  - intros room. apply set_eq. intros c.
    change (members _ room) with
      (members (set_rooms (fmap (λ ms : gset string, ms ∖ {[id socket]})) w1) room) at 1.
    rewrite elem_of_members_leave_all, Hmem1. split.
    + intros [[[-> _]|Hc] Hne]; done.
    + intros Hc. split; [by right|]. intros ->.
      apply (wf_members w Hwf) in Hc as [? ?]. congruence.
  - done.
  - unfold resolve. cbn [userConnections]. apply lookup_delete_eq.
  - apply lookup_delete_eq.
  - intros Hres. unfold resolve in Hres. split.
    + rewrite Huc, delete_insert_eq. by apply delete_id.
    + rewrite Hur, delete_insert_eq. apply delete_id.
      destruct (userRoles w !! U) eqn:E; [|done].
      assert (is_Some (userConnections w !! U)) as [? ?]
        by (apply (wf_roles w Hwf); by eexists). congruence.
  - intros c Hc. destruct (wf_resolve_connected w U c Hwf Hc) as (s & Hs & _).
    exists s. rewrite lookup_delete_ne, Hso, lookup_insert_ne; [done| |]; intros <-; congruence.
Qed.

Lemma connect_then_disconnect_witness :
  reachable Scenario.w_A ∧ accepts Scenario.w_A (Connect Scenario.socketC) = true
  ∧ socketUsers (exec (Disconnect "sockC" "client namespace disconnect") Scenario.w_AC)
    = socketUsers Scenario.w_A
  ∧ ∀ room, members (exec (Disconnect "sockC" "client namespace disconnect") Scenario.w_AC) room
            = members Scenario.w_A room.
Proof.
  assert (H : accepts Scenario.w_A (Connect Scenario.socketC) = true)
    by (vm_compute; reflexivity).
  destruct (connect_then_disconnect Scenario.w_A Scenario.socketC
              "client namespace disconnect" reachable_w_A H) as (_ & R1 & _ & R2 & _).
  exact (conj reachable_w_A (conj H (conj R1 R2))).
Defined.

(** X11: chat:join-room puts the socket into the room chat-<id> (an
    absent id reads "undefined") and chat:leave-room takes it out; other
    rooms and the registry maps are untouched; each of the two events is
    announced once to every other member of the room and never to the
    sender. *)
Theorem chat_join_then_leave (w : World) (socket : Socket) (nowJ nowL : string)
    (chatRoomId : option string) :
  let sid := id socket in
  let room := "chat-" +:+ interpolate chatRoomId in
  let others := elements (members w room ∖ {[sid]}) in
  let data := Some (mkChatData chatRoomId) in
  let w1 := (on_chat_join_room socket nowJ data w).2 in
  let w2 := (on_chat_leave_room socket nowL data w1).2 in
  (∀ c, c ∈ members w1 room ↔ c = sid ∨ c ∈ members w room)
  ∧ (∀ c, c ∈ members w2 room ↔ c ∈ members w room ∧ c ≠ sid)
  ∧ (∀ r, r ≠ room → members w1 r = members w r ∧ members w2 r = members w r)
  ∧ userConnections w2 = userConnections w ∧ userRoles w2 = userRoles w
  ∧ socketUsers w2 = socketUsers w ∧ sockets w2 = sockets w
  ∧ sent w w1
    = deliver_to others "chat:user-joined" (chat_payload (userId_of socket) chatRoomId nowJ)
  ∧ sent w1 w2
    = deliver_to others "chat:user-left" (chat_payload (userId_of socket) chatRoomId nowL).
Proof.
  intros sid room others data w1 w2.
  assert (E1 : w1 = push (deliver_to (elements (members (socket_join sid room w).2 room ∖ {[sid]}))
                            "chat:user-joined"
                            (chat_payload (userId_of socket) chatRoomId nowJ))
                         (socket_join sid room w).2) by reflexivity.
  assert (E2 : w2 = push (deliver_to (elements (members (socket_leave sid room w1).2 room ∖ {[sid]}))
                            "chat:user-left"
                            (chat_payload (userId_of socket) chatRoomId nowL))
                         (socket_leave sid room w1).2) by reflexivity.
  assert (M1 : ∀ r c, c ∈ members w1 r ↔ (r = room ∧ c = sid) ∨ c ∈ members w r).
  { intros r c. rewrite E1.
    change (members (push _ ?x) r) with (members x r). apply elem_of_members_join. }
  assert (M2 : ∀ r c, c ∈ members w2 r ↔ c ∈ members w1 r ∧ ¬ (r = room ∧ c = sid)).
  { intros r c. rewrite E2.
    change (members (push _ ?x) r) with (members x r). apply elem_of_members_leave. }
  assert (S1 : members (socket_join sid room w).2 room ∖ {[sid]} = members w room ∖ {[sid]}).
  { apply set_eq. intros c. rewrite !elem_of_difference, elem_of_members_join,
      elem_of_singleton. tauto. }
  assert (S2 : members (socket_leave sid room w1).2 room ∖ {[sid]} = members w room ∖ {[sid]}).
  { apply set_eq. intros c. rewrite !elem_of_difference, elem_of_members_leave, M1,
      elem_of_singleton. tauto. }
  clearbody w1 w2.
  split; [|split; [|split; [|split; [|split; [|split; [|split; [|split]]]]]]].
  - intros c. rewrite M1. tauto.
  - intros c. rewrite M2, M1. tauto.
  - intros r Hr. split; apply set_eq; intros c.
    + rewrite M1. tauto.
    + rewrite M2, M1. tauto.
  - by rewrite E2, E1.
  - by rewrite E2, E1.
  - by rewrite E2, E1.
  - by rewrite E2, E1.
  - apply sent_app. rewrite E1, S1. reflexivity.
  - apply sent_app. rewrite E2, S2. reflexivity.
Qed.

(** X12: the "disconnect" listener run for a socket id without a reverse
    entry changes nothing, so running it a second time for the same socket
    changes nothing either. *)
Theorem disconnect_of_unknown_socket (socket : Socket) (reason reason' : string) (w : World) :
  (socketUsers w !! id socket = None → on_disconnect socket reason w = (Returned tt, w))
  ∧ on_disconnect socket reason' (on_disconnect socket reason w).2
    = (Returned tt, (on_disconnect socket reason w).2).
Proof.
  assert (H : ∀ r w0, socketUsers w0 !! id socket = None
                      → on_disconnect socket r w0 = (Returned tt, w0)).
  { intros r w0 E. unfold on_disconnect, bind, gets, modify. rewrite E.
    destruct w0 as [uc ur su so ro ob]. simpl in *.
    unfold set_userRoles, set_socketUsers, set_userConnections; simpl.
    by rewrite delete_id. }
  split; [apply H|]. apply H.
  unfold on_disconnect, bind, gets, modify. simpl. apply lookup_delete_eq.
Qed.

Lemma disconnect_of_unknown_socket_witness :
  socketUsers Scenario.w_A !! id Scenario.socketC = None
  ∧ on_disconnect Scenario.socketC "transport close" Scenario.w_A
    = (Returned tt, Scenario.w_A).
Proof.
  assert (H : socketUsers Scenario.w_A !! id Scenario.socketC = None)
    by (vm_compute; reflexivity).
  destruct (disconnect_of_unknown_socket Scenario.socketC "transport close"
              "transport close" Scenario.w_A) as [R _].
  exact (conj H (R H)).
Defined.



Section DeliversToConnected.
Context (S : string → Prop).

Lemma dtc_silent {A} (m : M A) :
  (∀ w, (m w).2 = w) → delivers_to_connected S m.
Proof.
  intros Hm w _. exists []. rewrite Hm, push_nil. split; [done|].
  intros d Hd. by apply elem_of_nil in Hd.
Qed.

Lemma dtc_ret {A} (a : A) : delivers_to_connected S (ret a).
Proof. by apply dtc_silent. Qed.

Lemma dtc_throw {A} (e : string) : delivers_to_connected S (@throw A e).
Proof. by apply dtc_silent. Qed.

Lemma dtc_gets {A} (f : World → A) : delivers_to_connected S (gets f).
Proof. by apply dtc_silent. Qed.

Lemma dtc_destructure {A} (data : option A) : delivers_to_connected S (destructure data).
Proof. destruct data; [apply dtc_ret | apply dtc_throw]. Qed.

Lemma dtc_bind {A B} (m : M A) (k : A → M B) :
  delivers_to_connected S m → (∀ a, delivers_to_connected S (k a)) →
  delivers_to_connected S (bind m k).
Proof.
  intros Hm Hk w Hwf. unfold bind.
  destruct (Hm w Hwf) as (ds1 & E1 & H1).
  destruct (m w) as [[a|e] w1]; simpl in E1; subst w1.
  - destruct (Hk a (push ds1 w) Hwf) as (ds2 & E2 & H2).
    exists (ds1 ++ ds2). rewrite E2, push_push. split; [done|].
    intros d Hd. apply elem_of_app in Hd as [Hd|Hd]; [by apply H1 | by apply H2].
  - by exists ds1.
Qed.

Lemma dtc_deliver (targets : list string) (e : string) (a : value) (d : Delivery) :
  d ∈ deliver_to targets e a → dest d ∈ targets.
Proof.
  unfold deliver_to. intros Hd. apply list_elem_of_fmap in Hd as (c & -> & Hc). done.
Qed.

Lemma dtc_socket_emit (sid e : string) (a : value) :
  S sid → delivers_to_connected S (socket_emit sid e a).
Proof.
  intros HS w _. eexists. split; [reflexivity|].
  intros d Hd. apply dtc_deliver in Hd. apply list_elem_of_singleton in Hd as ->. by left.
Qed.

Lemma dtc_socket_to_emit (sid room e : string) (a : value) :
  delivers_to_connected S (socket_to_emit sid room e a).
Proof.
  intros w Hwf. eexists. split; [reflexivity|].
  intros d Hd. apply dtc_deliver, elem_of_elements, elem_of_difference in Hd as [Hd _].
  right. by apply (Hwf room).
Qed.

Lemma dtc_io_to_emit (room e : string) (a : value) :
  delivers_to_connected S (io_to_emit room e a).
Proof.
  intros w Hwf. eexists. split; [reflexivity|].
  intros d Hd. apply dtc_deliver, elem_of_elements in Hd.
  right. by apply (Hwf room).
Qed.

Lemma dtc_io_emit (e : string) (a : value) : delivers_to_connected S (io_emit e a).
Proof.
  intros w Hwf. eexists. split; [reflexivity|].
  intros d Hd. apply dtc_deliver, elem_of_elements, elem_of_dom in Hd. by right.
Qed.

Lemma dtc_if_truthy {A} (x : option string) (t : string → M A) (e : M A) :
  (∀ s, delivers_to_connected S (t s)) → delivers_to_connected S e →
  delivers_to_connected S (if_truthy x t e).
Proof.
  intros Ht He. unfold if_truthy.
  destruct x as [s|]; [destruct (truthy_str s)|]; auto.
Qed.

Lemma dtc_forEach {A St} (xs : list A) (f : A → St → M St) (acc : St) :
  (∀ x s, delivers_to_connected S (f x s)) → delivers_to_connected S (forEach xs f acc).
Proof.
  intros Hf. revert acc. induction xs as [|x xs IH]; intros acc; simpl.
  - apply dtc_ret.
  - apply dtc_bind; auto.
Qed.

Lemma dtc_js_forEach {St} (x : ids) (f : string → St → M St) (acc : St) :
  (∀ u s, delivers_to_connected S (f u s)) → delivers_to_connected S (js_forEach x f acc).
Proof.
  intros Hf. destruct x; simpl; auto using dtc_throw, dtc_forEach.
Qed.

End DeliversToConnected.

Ltac dtc :=
  repeat first
    [ progress intros
    | apply dtc_bind
    | apply dtc_if_truthy
    | apply dtc_forEach
    | apply dtc_js_forEach
    | apply dtc_ret | apply dtc_throw | apply dtc_gets | apply dtc_destructure
    | apply dtc_socket_to_emit | apply dtc_io_to_emit | apply dtc_io_emit
    | apply dtc_socket_emit; reflexivity ].

Lemma dtc_route (req : request) (now : string) :
  delivers_to_connected (λ _, False) (route req now).
Proof.
  destruct req; simpl;
    unfold post_notify_chat_message, post_notify_chat_read, post_notify_call_incoming,
      post_notify_call_answered, post_notify_call_rejected, notify_caller,
      post_notify_call_ended, post_notify_user, post_notify_users, post_notify_role,
      post_notify_all, sendToUser, sendToUsers, sendToRole, fan_out_step;
    repeat case_match; dtc.
Qed.

Lemma dtc_listener (socket : Socket) (now : string) (msg : message) :
  match msg with ChatJoinRoom _ | ChatLeaveRoom _ => False | _ => True end →
  delivers_to_connected (λ c, c = id socket) (listener socket now msg).
Proof.
  destruct msg; simpl; try done; intros _;
    unfold on_chat_typing, on_chat_stop_typing, on_call_offer, on_call_answer,
      on_call_ice_candidate, on_ping;
    dtc; try case_match; dtc.
Qed.

Lemma sent_push (w : World) (ds : list Delivery) : sent w (push ds w) = ds.
Proof. by apply sent_app. Qed.

(** X14: in one step of the server the outbox only grows, every new
    delivery goes to a socket connected when the step began, and a socket
    connecting or disconnecting causes no delivery at all (chat rooms are
    not told that a member disconnected). *)
Theorem deliveries_reach_connected_sockets (w : World) (i : input) :
  reachable w → accepts w i = true →
  outbox (exec i w) = outbox w ++ sent w (exec i w)
  ∧ (∀ d, d ∈ sent w (exec i w) → is_Some (sockets w !! dest d))
  ∧ match i with
    | Connect _ | Disconnect _ _ => sent w (exec i w) = []
    | _ => True
    end.
Proof.
  intros Hw Hacc. apply reachable_wf in Hw.
  assert (Hsilent : outbox (exec i w) = outbox w → 
            outbox (exec i w) = outbox w ++ sent w (exec i w)
            ∧ (∀ d, d ∈ sent w (exec i w) → is_Some (sockets w !! dest d))
            ∧ sent w (exec i w) = []).
  { intros E. assert (Hs : sent w (exec i w) = []).
    { apply sent_app. by rewrite app_nil_r. }
    rewrite Hs, app_nil_r. split; [done|]. split; [|done].
    intros d Hd. by apply elem_of_nil in Hd. }
  assert (Hpush : ∀ ds, exec i w = push ds w → 
            (∀ d, d ∈ ds → is_Some (sockets w !! dest d)) →
            outbox (exec i w) = outbox w ++ sent w (exec i w)
            ∧ (∀ d, d ∈ sent w (exec i w) → is_Some (sockets w !! dest d))).
  { intros ds E Hds. rewrite E, sent_push. done. }
  destruct i as [socket|sid msg now|sid reason|req now].
  - apply Hsilent.
    by destruct (transport_connect_fields socket w) as (_ & _ & _ & _ & Hout & _).
  - cbn [exec] in *. simpl in Hacc. apply bool_decide_eq_true in Hacc as [socket Hs].
    rewrite Hs in *.
    destruct (wf_socket_id w Hw _ _ Hs) as (Hid & _ & _).
    assert (Hgen : ∀ m : M unit, delivers_to_connected (λ c, c = id socket) m →
              outbox (m w).2 = outbox w ++ sent w (m w).2
              ∧ (∀ d, d ∈ sent w (m w).2 → is_Some (sockets w !! dest d))).
    { intros m Hm. destruct (Hm w (wf_members w Hw)) as (ds & E & Hds). rewrite E, sent_push.
      split; [done|]. intros d Hd. destruct (Hds d Hd) as [->|?]; [|done].
      rewrite Hid. by eexists. }
    assert (Hroom : ∀ (w1 : World) (room e : string) (a : value),
              outbox w1 = outbox w → sockets w1 = sockets w →
              (∀ c, c ∈ members w1 room ∖ {[id socket]} → c ∈ members w room) →
              let w' := (socket_to_emit (id socket) room e a w1).2 in
              outbox w' = outbox w ++ sent w w'
              ∧ (∀ d, d ∈ sent w w' → is_Some (sockets w !! dest d))).
    { intros w1 room e a Ho Hso Hsub w'.
      assert (Hs' : sent w w' = deliver_to (elements (members w1 room ∖ {[id socket]})) e a).
      { apply sent_app. unfold w', socket_to_emit, modify. simpl. by rewrite Ho. }
      rewrite Hs'. split.
      - unfold w', socket_to_emit, modify. simpl. by rewrite Ho.
      - intros d Hd. apply dtc_deliver, elem_of_elements in Hd.
        apply (wf_members w Hw room). by apply Hsub. }
    enough (Hc : outbox (listener socket now msg w).2
                 = outbox w ++ sent w (listener socket now msg w).2
                 ∧ (∀ d, d ∈ sent w (listener socket now msg w).2
                         → is_Some (sockets w !! dest d))) by tauto.
    destruct msg as [[d|]|[d|]|d|d|d|d|d|];
      try (apply Hgen; by apply dtc_listener).
    + apply (Hroom (socket_join (id socket) ("chat-" +:+ interpolate (chatRoomId d)) w).2);
        [done|done|].
      intros c Hc. apply elem_of_difference in Hc as [Hc Hne].
      apply elem_of_members_join in Hc as [[_ ->]|Hc]; [|done].
      by apply not_elem_of_singleton in Hne.
    + destruct Hsilent as (H1 & H2 & _); done.
    + apply (Hroom (socket_leave (id socket) ("chat-" +:+ interpolate (chatRoomId d)) w).2);
        [done|done|].
      intros c Hc. apply elem_of_difference in Hc as [Hc _].
      by apply elem_of_members_leave in Hc as [Hc _].
    + destruct Hsilent as (H1 & H2 & _); done.
  - cbn [exec] in *. simpl in Hacc. apply bool_decide_eq_true in Hacc as [socket Hs].
    rewrite Hs in *. apply Hsilent. by rewrite transport_disconnect_world.
  - cbn [exec] in *.
    enough (Hc : outbox (express req now w).2 = outbox w ++ sent w (express req now w).2
                 ∧ (∀ d, d ∈ sent w (express req now w).2
                         → is_Some (sockets w !! dest d))) by tauto.
    destruct (dtc_route req now w (wf_members w Hw)) as (ds & E & Hds).
    apply (Hpush ds).
    + unfold express. destruct (route req now w) as [[r|e] w1]; by simpl in *.
    + intros d Hd. by destruct (Hds d Hd).
Qed.

Lemma deliveries_reach_connected_sockets_witness :
  reachable Scenario.w_AC
  ∧ accepts Scenario.w_AC (Receive "sockA" Ping "t0") = true
  ∧ ∀ d, d ∈ sent Scenario.w_AC (exec (Receive "sockA" Ping "t0") Scenario.w_AC)
         → is_Some (sockets Scenario.w_AC !! dest d).
Proof.
  assert (H : accepts Scenario.w_AC (Receive "sockA" Ping "t0") = true)
    by (vm_compute; reflexivity).
  destruct (deliveries_reach_connected_sockets Scenario.w_AC (Receive "sockA" Ping "t0")
              reachable_w_AC H) as (_ & R & _).
  exact (conj reachable_w_AC (conj H R)).
Defined.

Lemma role_of_truthy (socket : Socket) : truthy_str (role_of socket) = true.
Proof.
  unfold role_of, or_else. destruct (auth_role socket) as [s|]; [|done].
  by destruct (truthy_str s) eqn:E.
Qed.

(** X15: in every reachable world the keys and values of the three maps
    are non-empty strings, and a connected socket whose handshake had no
    user id, or an empty one, is registered under guest-<socket id>. *)
Theorem registered_ids_and_roles_are_non_empty (w : World) :
  reachable w →
  (∀ u c, userConnections w !! u = Some c → truthy_str u = true ∧ truthy_str c = true)
  ∧ (∀ c u, socketUsers w !! c = Some u → truthy_str c = true ∧ truthy_str u = true)
  ∧ (∀ u r, userRoles w !! u = Some r → truthy_str u = true ∧ truthy_str r = true)
  ∧ (∀ c s, sockets w !! c = Some s → truthy_field (auth_userId s) = false
            → socketUsers w !! c = Some ("guest-" +:+ c)).
Proof.
  intros Hw. pose proof (reachable_wf w Hw) as Hwf.
  pose proof (reachable_wf_rooms w Hw) as Hr.
  split; [|split; [|split]].
  - intros u c Hc. destruct (wf_resolve_connected w u c Hwf Hc) as (s & _ & <- & Ht).
    split; [apply userId_of_truthy | done].
  - intros c u Hu. apply (wf_reverse w Hwf) in Hu as (s & Hs & ->).
    destruct (wf_socket_id w Hwf c s Hs) as (_ & Ht & _).
    split; [done | apply userId_of_truthy].
  - intros u r Hu.
    assert (is_Some (userConnections w !! u)) as [c Hc]
      by (apply (wf_roles w Hwf); by eexists).
    destruct (wf_resolve_connected w u c Hwf Hc) as (s & Hs & <- & _).
    rewrite (wfr_stored w Hr _ c s Hc Hs) in Hu. injection Hu as <-.
    split; [apply userId_of_truthy | apply role_of_truthy].
  - intros c s Hs Hf. destruct (wf_socket_id w Hwf c s Hs) as (Hid & _ & _).
    apply (wf_reverse w Hwf). exists s. split; [done|].
    unfold userId_of, or_else. unfold truthy_field in Hf.
    destruct (auth_userId s) as [a|]; [rewrite Hf|]; by rewrite Hid.
Qed.

Lemma registered_ids_and_roles_are_non_empty_witness :
  reachable Scenario.w_AC
  ∧ ∀ u r, userRoles Scenario.w_AC !! u = Some r
           → truthy_str u = true ∧ truthy_str r = true.
Proof.
  destruct (registered_ids_and_roles_are_non_empty Scenario.w_AC reachable_w_AC)
    as (_ & _ & R & _).
  exact (conj reachable_w_AC R).
Defined.



(** X17: a connected socket is sent the room broadcast of
    /notify/chat/message once it joined the room, and is no longer sent it
    after it left the room or disconnected. *)
Theorem chat_messages_follow_membership (w : World) (sid : string) (socket : Socket)
    (chatRoomId : string) (messageData : value) (now : string) :
  reachable w → sockets w !! sid = Some socket →
  truthy_str chatRoomId = true → truthy messageData = true →
  let data := Some (mkChatData (Some chatRoomId)) in
  let post := Post (NotifyChatMessage (Some chatRoomId) (IdsArray []) messageData) now in
  let joined := exec (Receive sid (ChatJoinRoom data) now) w in
  let gone := exec (Receive sid (ChatLeaveRoom data) now) joined in
  let closed := exec (Disconnect sid "transport close") joined in
  (mkDelivery sid "chat:message" messageData ∈ sent joined (exec post joined))
  ∧ (mkDelivery sid "chat:message" messageData ∉ sent gone (exec post gone))
  ∧ (mkDelivery sid "chat:message" messageData ∉ sent closed (exec post closed)).
Proof.
  intros Hw Hs Hc Hm data post joined gone closed.
  pose proof (reachable_wf w Hw) as Hwf.
  destruct (wf_socket_id w Hwf sid socket Hs) as (Hid & _ & _).
  assert (Hacc1 : accepts w (Receive sid (ChatJoinRoom data) now) = true).
  { simpl. apply bool_decide_eq_true. by eexists. }
  assert (Hj : reachable joined) by (by apply reachable_step).
  assert (Ej : joined = (on_chat_join_room socket now data w).2).
  { unfold joined, exec. by rewrite Hs. }
  assert (Hsj : sockets joined !! sid = Some socket) by (by rewrite Ej).
  assert (Hacc2 : accepts joined (Receive sid (ChatLeaveRoom data) now) = true).
  { simpl. apply bool_decide_eq_true. by eexists. }
  assert (Hacc3 : accepts joined (Disconnect sid "transport close") = true).
  { simpl. apply bool_decide_eq_true. by eexists. }
  assert (Hl : reachable gone) by (by apply reachable_step).
  assert (Hcl : reachable closed) by (by apply reachable_step).
  assert (El : gone = (on_chat_leave_room socket now data joined).2).
  { unfold gone, exec. by rewrite Hsj. }
  assert (Ecl : closed = (transport_disconnect socket "transport close" joined).2).
  { unfold closed, exec. by rewrite Hsj. }
  assert (M1 : sid ∈ members joined ("chat-" +:+ chatRoomId)).
  { rewrite Ej.
    change (members (on_chat_join_room socket now data w).2 ?r)
      with (members (socket_join (id socket) ("chat-" +:+ chatRoomId) w).2 r).
    apply elem_of_members_join. left. by rewrite Hid. }
  assert (M2 : sid ∉ members gone ("chat-" +:+ chatRoomId)).
  { rewrite El.
    change (members (on_chat_leave_room socket now data joined).2 ?r)
      with (members (socket_leave (id socket) ("chat-" +:+ chatRoomId) joined).2 r).
    intros H. apply elem_of_members_leave in H as [_ H]. apply H. by rewrite Hid. }
  assert (Hpost : ∀ w0, reachable w0 →
            sent w0 (exec post w0)
            = deliver_to (elements (members w0 ("chat-" +:+ chatRoomId)))
                "chat:message" messageData).
  { intros w0 Hw0. unfold post. cbn [exec].
    rewrite (express_notify_chat_message w0 chatRoomId [] messageData now)
      by (try apply reachable_wf; done).
    cbn [snd omap app]. apply sent_push. }
  clearbody joined gone closed.
  rewrite !Hpost by done.
  split; [|split].
  - apply (deliver_to_elements _ _ _). exists sid. split; [done|]. done.
  - intros Hd. apply (deliver_to_elements _ _ _) in Hd as (c & [= <-] & Hc'). done.
  - intros Hd. apply (deliver_to_elements _ _ _) in Hd as (c & [= <-] & Hc').
    apply (wf_members closed (reachable_wf closed Hcl)) in Hc' as [s Hs'].
    rewrite Ecl, transport_disconnect_world in Hs'. cbn [snd sockets] in Hs'.
    rewrite <- Hid, lookup_delete_eq in Hs'. done.
Qed.

Lemma chat_messages_follow_membership_witness :
  reachable Scenario.w_AC ∧ sockets Scenario.w_AC !! "sockC" = Some Scenario.socketC
  ∧ truthy_str "r1" = true ∧ truthy (VStr "hi") = true
  ∧ mkDelivery "sockC" "chat:message" (VStr "hi")
    ∈ sent (exec (Receive "sockC" (ChatJoinRoom (Some (mkChatData (Some "r1")))) "t0")
                 Scenario.w_AC)
           (exec (Post (NotifyChatMessage (Some "r1") (IdsArray []) (VStr "hi")) "t0")
                 (exec (Receive "sockC" (ChatJoinRoom (Some (mkChatData (Some "r1")))) "t0")
                       Scenario.w_AC)).
Proof.
  assert (H : sockets Scenario.w_AC !! "sockC" = Some Scenario.socketC)
    by (vm_compute; reflexivity).
  destruct (chat_messages_follow_membership Scenario.w_AC "sockC" Scenario.socketC "r1"
              (VStr "hi") "t0" reachable_w_AC H eq_refl eq_refl) as (R & _).
  exact (conj reachable_w_AC (conj H (conj eq_refl (conj eq_refl R)))).
Defined.
